(** * Reporanger: the payment-notification pipeline (ai_agents/zenorc.py) and
      the repository-ingest backend (main.py), embedded and verified.

    Python text is a sequence of Unicode code points; a code point is an [N].
    The interpreter's Unicode database (which code points above the ASCII
    range are spaces, digits, alphanumerics, how they case-fold and how they
    lower-case) is not part of the repository: it is a record [unicode] that
    every text function takes, and every theorem holds for all such records.
    On the ASCII range the classifications are written out. *)

From Stdlib Require Import ZArith NArith QArith Lqa Ascii String List DecimalString.
From stdpp Require Import base tactics option list gmap.

Open Scope N_scope.
Open Scope list_scope.

(** ** Text *)

Definition str := list N.

Definition ord (a : ascii) : N := N_of_ascii a.

(** A literal of the source written in ASCII. *)
Fixpoint lit (s : string) : str :=
  match s with
  | EmptyString => []
  | String a s' => ord a :: lit s'
  end.

Arguments lit : simpl never.
Arguments ord : simpl never.

(** The rupee sign, U+20B9. *)
Definition RUPEE : N := 8377.

Record unicode := {
  uni_space : N -> bool;
  uni_digit : N -> bool;
  uni_alnum : N -> bool;
  uni_ci : N -> N -> bool;
  uni_lower : N -> list N
}.

Definition is_ascii (c : N) : bool := c <? 128.

Definition ascii_upper_p (c : N) : bool := (65 <=? c) && (c <=? 90).
Definition ascii_lower_p (c : N) : bool := (97 <=? c) && (c <=? 122).
Definition ascii_digit_p (c : N) : bool := (48 <=? c) && (c <=? 57).
Definition ascii_letter_p (c : N) : bool := ascii_upper_p c || ascii_lower_p c.

Definition ascii_lower (c : N) : N := if ascii_upper_p c then c + 32 else c.

Section Text.
Context (U : unicode).

(** [str.isspace] on one code point, the class [\s] of [re]. *)
Definition is_space (c : N) : bool :=
  if is_ascii c
  then ((9 <=? c) && (c <=? 13)) || ((28 <=? c) && (c <=? 32))
  else uni_space U c.

(** The class [\d] of [re] on text patterns. *)
Definition is_digit (c : N) : bool :=
  if is_ascii c then ascii_digit_p c else uni_digit U c.

(** The class [\w] of [re]: alphanumeric or underscore. *)
Definition is_word (c : N) : bool :=
  if is_ascii c
  then ascii_digit_p c || ascii_upper_p c || ascii_lower_p c || (c =? 95)
  else uni_alnum U c.

(** A pattern character [p] against a text character [t] under
    [re.IGNORECASE]. Within ASCII only letters have another case; whether
    a letter, or a character outside ASCII, has an equivalent outside ASCII
    is the table's answer. *)
Definition ci_eq (p t : N) : bool :=
  (p =? t) ||
  (if is_ascii p
   then ascii_letter_p p &&
        (if is_ascii t then ascii_lower p =? ascii_lower t else uni_ci U p t)
   else uni_ci U p t).

(** [str.lower]. A code point outside ASCII may lower-case to several. *)
Definition lower (s : str) : str :=
  flat_map (fun c => if is_ascii c then [ascii_lower c] else uni_lower U c) s.
End Text.

(** [s.startswith(p)] *)
Fixpoint startswith (p s : str) : bool :=
  match p, s with
  | [], _ => true
  | a :: p', b :: s' => (a =? b) && startswith p' s'
  | _ :: _, [] => false
  end.

(** [p in s] on text: [p] occurs as a contiguous run of [s]. *)
Fixpoint contains (p s : str) : bool :=
  startswith p s ||
  match s with
  | [] => false
  | _ :: s' => contains p s'
  end.


(** ** The fragment of [re] the source's patterns use *)

Module Re.

Inductive cls :=
| CSpace                      (* \s *)
| CDigit                      (* \d *)
| COneOf (l : list N).        (* [...] *)

Inductive regex :=
| Eps
| Lit (c : N)                 (* a literal character *)
| Cls (k : cls)
| Seq (a b : regex)
| Alt (a b : regex)           (* a|b *)
| Opt (a : regex)             (* a?, greedy *)
| Star (k : cls)              (* k*, greedy *)
| AtLeast (n : nat) (k : cls) (* k{n,}, greedy *)
| Group (a : regex)           (* the capturing group *)
| WordB.                      (* \b *)

(** The literal word [w], character by character. *)
Fixpoint word (w : str) : regex :=
  match w with
  | [] => Eps
  | c :: w' => Seq (Lit c) (word w')
  end.

(** Where the matcher stands: the character before the position, the text
    from the position on, and what the group captured so far. *)
Record mstate := MState { prev : option N; rest : str; grp : option str }.

(** The character before the position reached after reading [w] from a
    position whose previous character is [p]. *)
Fixpoint last_or (p : option N) (w : str) : option N :=
  match w with
  | [] => p
  | t :: w' => last_or (Some t) w'
  end.

Section Matcher.
Context (U : unicode).

Definition in_cls (k : cls) (t : N) : bool :=
  match k with
  | CSpace => is_space U t
  | CDigit => is_digit U t
  | COneOf l => existsb (fun p => ci_eq U p t) l
  end.

Definition wordish (o : option N) : bool :=
  match o with
  | Some c => is_word U c
  | None => false
  end.

(** [\b]: exactly one side of the position is a word character. *)
Definition at_boundary (p : option N) (s : str) : bool :=
  xorb (wordish p) (wordish (head s)).

Definition K := mstate -> option mstate.

(** Greedy repetition of a class: take one more character if the rest
    then matches, otherwise stop here. *)
Fixpoint star (k : cls) (cont : K) (p : option N) (g : option str) (s : str)
  : option mstate :=
  match s with
  | t :: s' =>
      if in_cls k t then
        match star k cont (Some t) g s' with
        | Some r => Some r
        | None => cont (MState p s g)
        end
      else cont (MState p s g)
  | [] => cont (MState p s g)
  end.

Fixpoint atleast (n : nat) (k : cls) (cont : K) (p : option N)
  (g : option str) (s : str) : option mstate :=
  match n with
  | O => star k cont p g s
  | S n' =>
      match s with
      | t :: s' => if in_cls k t then atleast n' k cont (Some t) g s' else None
      | [] => None
      end
  end.

(** The backtracking matcher, in continuation-passing style: [m r cont st]
    is the state at the end of the first complete match the engine finds,
    alternatives tried left to right and repetitions longest first. *)
Fixpoint m (r : regex) (cont : K) (st : mstate) : option mstate :=
  match r with
  | Eps => cont st
  | Lit c =>
      match rest st with
      | t :: s' => if ci_eq U c t then cont (MState (Some t) s' (grp st)) else None
      | [] => None
      end
  | Cls k =>
      match rest st with
      | t :: s' => if in_cls k t then cont (MState (Some t) s' (grp st)) else None
      | [] => None
      end
  | Seq a b => m a (m b cont) st
  | Alt a b =>
      match m a cont st with
      | Some r => Some r
      | None => m b cont st
      end
  | Opt a =>
      match m a cont st with
      | Some r => Some r
      | None => cont st
      end
  | Star k => star k cont (prev st) (grp st) (rest st)
  | AtLeast n k => atleast n k cont (prev st) (grp st) (rest st)
  | Group a =>
      m a (fun st' =>
             cont (MState (prev st') (rest st')
                     (Some (take (length (rest st) - length (rest st'))
                              (rest st)))))
        st
  | WordB => if at_boundary (prev st) (rest st) then cont st else None
  end.

(** [re.search]: the leftmost position at which the pattern matches. *)
Fixpoint search_from (r : regex) (p : option N) (s : str) : option mstate :=
  match m r Some (MState p s None) with
  | Some st => Some st
  | None =>
      match s with
      | [] => None
      | t :: s' => search_from r (Some t) s'
      end
  end.

Definition search (r : regex) (s : str) : option mstate :=
  search_from r None s.

(** [match.group(1)] *)
Definition group1 (st : mstate) : option str := grp st.

(** What it means for [r] to match the word [w] at a position preceded by
    [p] and followed by [post]; [g] and [g'] are the capture before and
    after. *)
Inductive M : regex -> option N -> option str -> str -> str -> option str -> Prop :=
| M_Eps p g post : M Eps p g [] post g
| M_Lit c t p g post : ci_eq U c t = true -> M (Lit c) p g [t] post g
| M_Cls k t p g post : in_cls k t = true -> M (Cls k) p g [t] post g
| M_Seq a b p g w1 w2 post g1 g2 :
    M a p g w1 (w2 ++ post) g1 ->
    M b (last_or p w1) g1 w2 post g2 ->
    M (Seq a b) p g (w1 ++ w2) post g2
| M_AltL a b p g w post g1 : M a p g w post g1 -> M (Alt a b) p g w post g1
| M_AltR a b p g w post g1 : M b p g w post g1 -> M (Alt a b) p g w post g1
| M_OptS a p g w post g1 : M a p g w post g1 -> M (Opt a) p g w post g1
| M_OptN a p g post : M (Opt a) p g [] post g
| M_Star k p g w post :
    forallb (in_cls k) w = true -> M (Star k) p g w post g
| M_AtLeast n k p g w post :
    forallb (in_cls k) w = true -> (n <= length w)%nat ->
    M (AtLeast n k) p g w post g
| M_Group a p g w post g1 :
    M a p g w post g1 -> M (Group a) p g w post (Some w)
| M_WordB p g post :
    at_boundary p post = true -> M WordB p g [] post g.
(** A match of [r] somewhere in [s], with what the group captured. *)
Definition match_at (r : regex) (s pre w post : str) (g : option str) : Prop :=
  s = pre ++ w ++ post /\ M r (last_or None pre) None w post g.

Definition matches (r : regex) (s : str) : Prop :=
  exists pre w post g, match_at r s pre w post g.

(** The match [re.search] reports is the leftmost one: no match starts
    earlier in the text. *)
Definition leftmost_match (r : regex) (s pre w post : str) (g : option str) : Prop :=
  match_at r s pre w post g /\
  forall pre' w' post' g',
    match_at r s pre' w' post' g' -> (length pre <= length pre')%nat.

(** [g] is the text of the group in a leftmost match of [r] in [s]. *)
Definition captured (r : regex) (s g : str) : Prop :=
  exists pre w post, leftmost_match r s pre w post (Some g).

(** A continuation that always succeeds and leaves the position alone. *)
Definition accepting (cont : K) : Prop :=
  forall st, exists y, cont st = Some y /\ rest y = rest st.

(** The text does not go on with a character of the class. *)
Definition stops (k : cls) (s : str) : Prop :=
  match s with
  | [] => True
  | c :: _ => in_cls k c = false
  end.

End Matcher.

End Re.

(** [seqs [r1; ...; rn]] is the concatenation r1 ... rn. *)
Definition seqs (rs : list Re.regex) : Re.regex :=
  fold_right Re.Seq Re.Eps rs.

(** ** Numbers and their text *)

(** [int(x)] on a real number: truncation towards zero. *)
Definition py_int (q : Q) : Z := Z.quot (Qnum q) (Zpos (Qden q)).

(** [str(n)] on an integer: its decimal numeral. *)
Definition str_of_Z (z : Z) : str :=
  lit (DecimalString.NilZero.string_of_int (Z.to_int z)).

(** ** Exceptions *)

(** The classes of the exceptions that the two files raise, name or catch.
    All of them derive from [Exception]; [HTTPException] is the web
    framework's, the others are built in or belong to the library named. *)
Inductive exn_class :=
| NameError
| ValueError
| RuntimeError
| FileNotFoundError
| IsADirectoryError
| IndexError
| AttributeError
| TimeoutError
| ConnectionError
| ZoneInfoNotFoundError
| HTTPException (status_code : Z)
| PlainException                (* Exception(...) itself *)
| LibraryError (name : string). (* any other subclass of Exception *)

(** An exception object: its class and the text [str(e)] gives. *)
Record exn := Exn { exn_cls : exn_class; exn_text : str }.

Inductive result (A : Type) :=
| Ok (a : A)
| Raise (e : exn).
Arguments Ok {A} a.
Arguments Raise {A} e.

#[global] Instance exn_class_eq_dec : EqDecision exn_class.
Proof. solve_decision. Defined.

(** [print(f"[{level}] {msg}", flush=True)]: the line written. *)
Definition log_line (level : string) (msg : str) : str :=
  lit "[" ++ lit level ++ lit "] " ++ msg.

(** * ai_agents/zenorc.py *)

Module Zenorc.
Import Re.

(** [_AMT_5_RE = (?:₹|rs\.?|inr)\s*[, ]*\s*5(?:[.,]00)?\b], IGNORECASE *)
Definition _AMT_5_RE : regex :=
  seqs [ Alt (Lit RUPEE)
           (Alt (seqs [word (lit "rs"); Opt (Lit (ord "."))])
                (word (lit "inr")));
         Star CSpace;
         Star (COneOf (lit ", "));
         Star CSpace;
         Lit (ord "5");
         Opt (seqs [Cls (COneOf (lit ".,")); word (lit "00")]);
         WordB ].

(** [Reference\s*(?:No\.?|number)?\s*[:\-]?\s*(\d{8,})] *)
Definition pattern_reference : regex :=
  seqs [ word (lit "Reference");
         Star CSpace;
         Opt (Alt (seqs [word (lit "No"); Opt (Lit (ord "."))])
                  (word (lit "number")));
         Star CSpace;
         Opt (Cls (COneOf (lit ":-")));
         Star CSpace;
         Group (AtLeast 8 CDigit) ].

(** [transaction reference number\s*(?:is)?\s*[:\-]?\s*(\d{8,})] *)
Definition pattern_transaction : regex :=
  seqs [ word (lit "transaction reference number");
         Star CSpace;
         Opt (word (lit "is"));
         Star CSpace;
         Opt (Cls (COneOf (lit ":-")));
         Star CSpace;
         Group (AtLeast 8 CDigit) ].

Definition patterns : list regex := [pattern_reference; pattern_transaction].

Section Scanner.
Context (U : unicode).

(** The loop of [_extract_txn_id] over the patterns: the group of the first
    pattern that is found in the body. The result of [match.group(1)] is
    [None] when the group took no part in the match. *)
Fixpoint first_match (pats : list regex) (body : str) : option (option str) :=
  match pats with
  | [] => None
  | pat :: pats' =>
      match search U pat body with
      | Some mt => Some (group1 mt)
      | None => first_match pats' body
      end
  end.

(** [_extract_txn_id(body)]; [now] is what [time.time()] returns when the
    fallback reads the clock. *)
Definition _extract_txn_id (body : str) (now : Q) : option str :=
  match first_match patterns body with
  | Some g => g
  | None => Some (lit "TXN" ++ str_of_Z (py_int now))
  end.

(** [_is_valid_payment(body_lc)] *)
Definition _is_valid_payment (body_lc : str) : bool :=
  let is_credit :=
    contains (lit "credited") body_lc && negb (contains (lit "debited") body_lc) in
  let is_correct_amount := bool_decide (is_Some (search U _AMT_5_RE body_lc)) in
  is_credit && is_correct_amount.

(** The call site in [poll_email]: [_is_valid_payment(body.lower())]. *)
Definition classify (body : str) : bool := _is_valid_payment (lower U body).







(** Eight or more digits. *)
Definition reference_digits (g : str) : Prop :=
  (8 <= length g)%nat /\ Forall (fun t => is_digit U t = true) g.


End Scanner.

(** *** Names and the timezone helper *)

(** The names the module binds at its top level: what it imports and what it
    defines. *)
Definition module_names : list string :=
  [ "annotations"; "email"; "imaplib"; "os"; "re"; "threading"; "time"; "uuid";
    "deque"; "datetime"; "Optional"; "ZoneInfo"; "gspread"; "mqtt";
    "load_dotenv"; "ServiceAccountCredentials";
    "EMAIL_ID"; "EMAIL_PASSWORD"; "MQTT_BROKER"; "MQTT_PORT"; "MQTT_USERNAME";
    "MQTT_PASSWORD"; "MQTT_TOPIC"; "CLIENT_ID"; "GSHEET_URL";
    "GSHEET_CREDS_PATH"; "SEARCH_STRINGS"; "COOLDOWN_SECONDS";
    "imap_lock"; "seen_uids"; "seen_txn_ids"; "queue"; "status";
    "last_processed";
    "log"; "tz_mumbai"; "_sheet"; "_bootstrap_txns"; "log_payment";
    "send_mqtt"; "_imap_login"; "_extract_txn_id"; "_AMT_5_RE";
    "_is_valid_payment"; "poll_email"; "processor"; "main_loop"; "start"
  ]%string.

(** What a name in an [except] clause can be bound to. *)
Inductive binding :=
| BException              (* the class Exception *)
| BClass (c : exn_class)  (* one exception class *)
| BOther.                 (* not an exception class *)

(** The built-in exception classes. *)
Definition builtins (name : string) : option binding :=
  if String.eqb name "Exception" then Some BException
  else if String.eqb name "NameError" then Some (BClass NameError)
  else if String.eqb name "ValueError" then Some (BClass ValueError)
  else if String.eqb name "RuntimeError" then Some (BClass RuntimeError)
  else if String.eqb name "FileNotFoundError" then Some (BClass FileNotFoundError)
  else if String.eqb name "IsADirectoryError" then Some (BClass IsADirectoryError)
  else if String.eqb name "IndexError" then Some (BClass IndexError)
  else if String.eqb name "AttributeError" then Some (BClass AttributeError)
  else if String.eqb name "TimeoutError" then Some (BClass TimeoutError)
  else if String.eqb name "ConnectionError" then Some (BClass ConnectionError)
  else None.

(** A global name is looked up in the module, then among the built-ins. *)
Definition lookup_name (name : string) : option binding :=
  if existsb (String.eqb name) module_names then Some BOther else builtins name.

(** Evaluating the clause [except <name>:] against a raised [e]: whether the
    clause takes it, or what evaluating the clause itself raises. *)
Definition except_matches (name : string) (e : exn) : result bool :=
  match lookup_name name with
  | None =>
      Raise (Exn NameError (lit "name '" ++ lit name ++ lit "' is not defined"))
  | Some BException => Ok true
  | Some (BClass c) => Ok (bool_decide (exn_cls e = c))
  | Some BOther =>
      Raise (Exn (LibraryError "TypeError")
               (lit "catching classes that do not inherit from BaseException is not allowed"))
  end.

(** [ZoneInfo(key)]; [zones] says which keys the time zone database has. *)
Definition ZoneInfo (zones : string -> bool) (key : string) : result string :=
  if zones key then Ok key
  else Raise (Exn ZoneInfoNotFoundError
                (lit "'No time zone found with key " ++ lit key ++ lit "'")).

(** [tz_mumbai()] *)
Definition tz_mumbai (zones : string -> bool) : result string :=
  match ZoneInfo zones "Asia/Mumbai" with
  | Ok z => Ok z
  | Raise e =>
      match except_matches "ZoneInfoNotFoundError" e with
      | Raise e' => Raise e'
      | Ok true => ZoneInfo zones "UTC"
      | Ok false => Raise e
      end
  end.

(** *** Configuration and shared state *)

Record config := {
  GSHEET_URL : option str;
  GSHEET_CREDS_PATH : str;
  creds_is_file : bool;          (* os.path.isfile(GSHEET_CREDS_PATH) *)
  MQTT_USERNAME : option str;
  COOLDOWN_SECONDS : Z
}.

(** The values of the [status] dictionary. *)
Inductive status_t := Queued | Processing | Completed | Failed.

#[global] Instance status_t_eq_dec : EqDecision status_t.
Proof. solve_decision. Defined.

(** The module's globals that the two loops share, the wall clock that
    [time.time()] reads, the lines printed and the rows of the sheet. *)
Record world := World {
  seen_txn_ids : gset str;
  queue : list str;
  status : gmap str status_t;
  last_processed : Q;
  clock : Q;
  stdout : list str;
  ledger : list (list str)
}.

Definition set_seen (f : gset str -> gset str) (w : world) : world :=
  World (f (seen_txn_ids w)) (queue w) (status w) (last_processed w) (clock w)
    (stdout w) (ledger w).
Definition set_queue (q : list str) (w : world) : world :=
  World (seen_txn_ids w) q (status w) (last_processed w) (clock w)
    (stdout w) (ledger w).
Definition set_status (t : str) (v : status_t) (w : world) : world :=
  World (seen_txn_ids w) (queue w) (<[t := v]> (status w)) (last_processed w)
    (clock w) (stdout w) (ledger w).
Definition set_last_processed (x : Q) (w : world) : world :=
  World (seen_txn_ids w) (queue w) (status w) x (clock w) (stdout w) (ledger w).
Definition set_clock (x : Q) (w : world) : world :=
  World (seen_txn_ids w) (queue w) (status w) (last_processed w) x
    (stdout w) (ledger w).
Definition add_row (row : list str) (w : world) : world :=
  World (seen_txn_ids w) (queue w) (status w) (last_processed w) (clock w)
    (stdout w) (ledger w ++ [row]).

(** [log(msg, level)] *)
Definition log (level : string) (msg : str) (w : world) : world :=
  World (seen_txn_ids w) (queue w) (status w) (last_processed w) (clock w)
    (stdout w ++ [log_line level msg]) (ledger w).

(** *** Ledger recorder *)

(** What the spreadsheet service and the local calendar answer during one
    call of [log_payment]. *)
Record ledger_env := {
  open_sheet : option exn;      (* what authorising and opening raise *)
  zones : string -> bool;
  today : str;                  (* now.strftime("%Y-%m-%d") *)
  time_of_day : str;            (* now.strftime("%H:%M:%S") *)
  append_row : option exn       (* what sheet.append_row raises *)
}.

Definition falsy (o : option str) : bool :=
  match o with
  | None | Some [] => true
  | Some (_ :: _) => false
  end.

(** [_sheet()] *)
Definition _sheet (cfg : config) (L : ledger_env) : result unit :=
  if falsy (GSHEET_URL cfg) then
    Raise (Exn RuntimeError (lit "GSHEET_URL env var missing"))
  else if negb (creds_is_file cfg) then
    Raise (Exn FileNotFoundError
             (lit "Credentials not found: " ++ GSHEET_CREDS_PATH cfg))
  else match open_sheet L with
       | Some e => Raise e
       | None => Ok tt
       end.

(** The body of the [try] of [log_payment]. *)
Definition log_payment_try (cfg : config) (L : ledger_env) (txn_id amount : str)
  (w : world) : result world :=
  match _sheet cfg L with
  | Raise e => Raise e
  | Ok _ =>
      match tz_mumbai (zones L) with
      | Raise e => Raise e
      | Ok _ =>
          let row_data := [txn_id; amount; today L; time_of_day L] in
          match append_row L with
          | Some e => Raise e
          | None =>
              Ok (log "INFO" (lit "Logged " ++ txn_id ++ lit " to Google Sheets.")
                    (set_seen (fun s => {[txn_id]} ∪ s) (add_row row_data w)))
          end
      end
  end.

(** [log_payment(txn_id, amount)]; every exception of the model derives from
    [Exception], so the handler takes whatever the body raises. *)
Definition log_payment (cfg : config) (L : ledger_env) (txn_id amount : str)
  (w : world) : world :=
  match log_payment_try cfg L txn_id amount w with
  | Ok w' => w'
  | Raise e =>
      log "ERROR" (lit "Failed to log payment to Google Sheets: " ++ exn_text e) w
  end.

(** *** Signal publisher *)

(** How far one attempt of [send_mqtt] gets, as the broker and the client
    library decide. *)
Inductive outcome :=
| ClientRaises (e : exn)          (* mqtt.Client(...) raises *)
| TlsRaises (e : exn)             (* client.tls_set() raises *)
| ConnectRaises (e : exn)         (* client.connect(...) raises *)
| AckTimeout                      (* connected.wait(timeout=10) is False *)
| PublishRaises (e : exn)         (* client.publish(...) raises *)
| PublishRejected (reason : str)  (* rc != MQTT_ERR_SUCCESS *)
| Published (mid : Z).

Record attempt_env := {
  outcome_of : outcome;
  connected_at_exit : bool        (* client.is_connected() in the finally *)
}.

(** What an attempt does to the client and the process. *)
Inductive event :=
| EvClient
| EvCredentials
| EvTls
| EvConnect
| EvLoopStart
| EvPublish
| EvLoopStop
| EvDisconnect
| EvSleep (seconds : Z)
| EvLog (level : string) (msg : str).

(** U+21B3, the arrow that starts the publisher's log lines. *)
Definition ARROW : N := 8627.

Definition timeout_error : exn :=
  Exn TimeoutError (lit "MQTT connection timed out").

(** The body of the [try]: the events up to the point it returns [True]
    ([Ok]) or raises. *)
Definition attempt_body (cfg : config) (o : outcome) : list event * result unit :=
  let made := EvClient ::
              (if falsy (MQTT_USERNAME cfg) then [] else [EvCredentials]) in
  let started := made ++ [EvTls; EvConnect; EvLoopStart] in
  let acked := started ++
               [EvLog "INFO" (ARROW :: lit " MQTT connected successfully.")] in
  match o with
  | ClientRaises e => ([], Raise e)
  | TlsRaises e => (made, Raise e)
  | ConnectRaises e => (made ++ [EvTls], Raise e)
  | AckTimeout => (started, Raise timeout_error)
  | PublishRaises e => (acked, Raise e)
  | PublishRejected reason =>
      (acked ++ [EvPublish],
       Raise (Exn ConnectionError (lit "Publish failed with code: " ++ reason)))
  | Published mid =>
      (acked ++ [EvPublish;
                 EvLog "INFO" (ARROW :: lit " MQTT publish successful (mid="
                                 ++ str_of_Z mid ++ lit ")")],
       Ok tt)
  end.

(** Whether the attempt assigns the local [client]. *)
Definition binds_client (o : outcome) : bool :=
  match o with
  | ClientRaises _ => false
  | _ => true
  end.

(** The [except Exception] clause of one attempt. *)
Definition attempt_handler (max_retries retry_delay attempt : Z) (e : exn)
  : list event :=
  EvLog "WARN" (lit "MQTT attempt " ++ str_of_Z attempt ++ lit " failed: "
                  ++ exn_text e) ::
  (if (attempt <? max_retries)%Z then [EvSleep retry_delay] else []).

(** The [finally] clause; [bound] says whether [client] is among the
    locals: it stays there from one attempt to the next. *)
Definition teardown : list event :=
  [EvLoopStop; EvDisconnect; EvLog "INFO" (ARROW :: lit " MQTT disconnected.")].

Definition attempt_finally (bound : bool) (a : attempt_env) : list event :=
  if bound && connected_at_exit a then teardown else [].

(** One turn of the [for] loop: its events, whether it returned [True], and
    whether [client] is bound afterwards. *)
Definition run_attempt (cfg : config) (max_retries retry_delay attempt : Z)
  (bound : bool) (a : attempt_env) : list event * bool * bool :=
  let '(evs, r) := attempt_body cfg (outcome_of a) in
  let bound' := bound || binds_client (outcome_of a) in
  match r with
  | Ok _ => (evs ++ attempt_finally bound' a, true, bound')
  | Raise e =>
      (evs ++ attempt_handler max_retries retry_delay attempt e
           ++ attempt_finally bound' a, false, bound')
  end.

(** The loop [for attempt in range(1, max_retries + 1)], from [attempt] on
    with [n] turns left: the events of each attempt made, and the result. *)
Fixpoint attempts_from (cfg : config) (max_retries retry_delay : Z) (n : nat)
  (attempt : Z) (bound : bool) (env : Z -> attempt_env)
  : list (list event) * bool :=
  match n with
  | O => ([], false)
  | S n' =>
      let '(evs, returned, bound') :=
        run_attempt cfg max_retries retry_delay attempt bound (env attempt) in
      if returned then ([evs], true)
      else
        let '(later, ok) :=
          attempts_from cfg max_retries retry_delay n' (attempt + 1)%Z bound' env in
        (evs :: later, ok)
  end.

(** [send_mqtt(max_retries, retry_delay)] *)
Definition send_mqtt (cfg : config) (env : Z -> attempt_env)
  (max_retries retry_delay : Z) : list (list event) * bool :=
  attempts_from cfg max_retries retry_delay (Z.to_nat max_retries) 1%Z false env.

(** The lines an attempt prints. *)
Fixpoint printed (evs : list event) : list str :=
  match evs with
  | [] => []
  | EvLog level msg :: evs' => log_line level msg :: printed evs'
  | _ :: evs' => printed evs'
  end.

(** The attempt stops the network loop and disconnects. *)
Definition tears_down (evs : list event) : Prop :=
  EvLoopStop ∈ evs /\ EvDisconnect ∈ evs.

(** The attempt fails before [client.connect] returns. *)
Definition never_connects (o : outcome) : bool :=
  match o with
  | ClientRaises _ | TlsRaises _ | ConnectRaises _ => true
  | _ => false
  end.

#[global] Instance exn_eq_dec : EqDecision exn.
Proof. solve_decision. Defined.

#[global] Instance event_eq_dec : EqDecision event.
Proof. solve_decision. Defined.

(** *** The two loops *)

(** What the outside world answers during one step of a loop. *)
Record inputs := {
  polled : option str;            (* what poll_email() returns *)
  sheet_env : ledger_env;
  broker : Z -> attempt_env
}.

(** Where [main_loop] stands. *)
Inductive ppc :=
| P_begin               (* log("Scanning inbox for payments...") *)
| P_poll                (* txn_id = poll_email() *)
| P_test (r : option str)   (* if txn_id and txn_id not in status *)
| P_set (t : str)       (* status[txn_id] = "Queued" *)
| P_log (t : str)       (* log_payment(txn_id) *)
| P_append (t : str)    (* queue.append(txn_id) *)
| P_report (t : str)    (* log(f"... Queue size: {len(queue)}") *)
| P_sleep.              (* time.sleep(5) *)

(** Where [processor] stands. *)
Inductive cpc :=
| C_top                 (* if not queue *)
| C_now                 (* now = time.time() *)
| C_check (now : Q)     (* if now - last_processed < COOLDOWN_SECONDS *)
| C_pop                 (* txn_id = queue.popleft() *)
| C_mark (t : str)      (* status[txn_id] = "Processing" *)
| C_send (t : str)      (* ok = send_mqtt() *)
| C_final (t : str) (ok : bool)   (* status[txn_id] = ... *)
| C_stamp               (* last_processed = time.time() *)
| C_sleep               (* time.sleep(1); continue *)
| C_crashed (e : exn).  (* the thread died on an uncaught exception *)

Definition Qltb (a b : Q) : bool := negb (Qle_bool b a).

Definition ENVELOPE : N := 128233.      (* U+1F4E9 *)
Definition GEAR : list N := [9881; 65039].  (* U+2699 U+FE0F *)
Definition CHECK_MARK : N := 10004.     (* U+2714 *)
Definition CROSS_MARK : N := 10060.     (* U+274C *)

(** One statement of [main_loop]. *)
Definition main_loop_step (cfg : config) (i : inputs) (pc : ppc) (w : world)
  : ppc * world :=
  match pc with
  | P_begin => (P_poll, log "INFO" (lit "Scanning inbox for payments...") w)
  | P_poll => (P_test (polled i), w)
  | P_test r =>
      match r with
      | Some (c :: t') =>
          if bool_decide (is_Some (status w !! (c :: t'))) then (P_sleep, w)
          else (P_set (c :: t'), w)
      | _ => (P_sleep, w)
      end
  | P_set t => (P_log t, set_status t Queued w)
  | P_log t => (P_append t, log_payment cfg (sheet_env i) t (lit "5") w)
  | P_append t => (P_report t, set_queue (queue w ++ [t]) w)
  | P_report t =>
      (P_sleep,
       log "INFO" (ENVELOPE :: lit " Queued " ++ t ++ lit ". Queue size: "
                     ++ str_of_Z (Z.of_nat (length (queue w)))) w)
  | P_sleep => (P_poll, w)
  end.

(** One statement of [processor]. *)
Definition processor_step (cfg : config) (i : inputs) (pc : cpc) (w : world)
  : cpc * world :=
  match pc with
  | C_top =>
      match queue w with
      | [] => (C_sleep, w)
      | _ :: _ => (C_now, w)
      end
  | C_now => (C_check (clock w), w)
  | C_check now =>
      if Qltb (now - last_processed w) (inject_Z (COOLDOWN_SECONDS cfg)) then
        let remain :=
          py_int (inject_Z (COOLDOWN_SECONDS cfg) - (now - last_processed w)) in
        (C_sleep,
         log "INFO" (lit "Cooldown active. Waiting for " ++ str_of_Z remain
                       ++ lit "s...") w)
      else (C_pop, w)
  | C_pop =>
      match queue w with
      | [] => (C_crashed (Exn IndexError (lit "pop from an empty deque")), w)
      | t :: q => (C_mark t, set_queue q w)
      end
  | C_mark t =>
      (C_send t,
       log "INFO" (GEAR ++ lit "  Processing " ++ t ++ lit "...")
         (set_status t Processing w))
  | C_send t =>
      let '(evs, ok) := send_mqtt cfg (broker i) 3 5 in
      (C_final t ok,
       World (seen_txn_ids w) (queue w) (status w) (last_processed w) (clock w)
         (stdout w ++ printed (concat evs)) (ledger w))
  | C_final t ok =>
      (C_stamp,
       log "INFO" ((if ok then CHECK_MARK else CROSS_MARK)
                     :: lit "  Completed processing " ++ t)
         (set_status t (if ok then Completed else Failed) w))
  | C_stamp => (C_top, set_last_processed (clock w) w)
  | C_sleep => (C_top, w)
  | C_crashed e => (C_crashed e, w)
  end.

(** The process: the shared state and where each thread stands. *)
Record sys := Sys { sw : world; pp : ppc; cp : cpc }.

(** What can happen next: time passes, or one of the threads runs one
    statement. *)
Inductive action :=
| Tick (d : Q)
| Producer (i : inputs)
| Consumer (i : inputs).

Definition step (cfg : config) (s : sys) (a : action) : sys :=
  match a with
  | Tick d =>
      if Qle_bool 0 d
      then Sys (set_clock (clock (sw s) + d) (sw s)) (pp s) (cp s)
      else s
  | Producer i =>
      let '(pc, w) := main_loop_step cfg i (pp s) (sw s) in Sys w pc (cp s)
  | Consumer i =>
      let '(pc, w) := processor_step cfg i (cp s) (sw s) in Sys w (pp s) pc
  end.

Definition run (cfg : config) (s : sys) (acts : list action) : sys :=
  fold_left (step cfg) acts s.

(** The state in which [start()] leaves the process: the recorded set is
    what the bootstrap loaded, everything else is as the module set it. *)
Definition started (bootstrapped : gset str) (t0 : Q) : sys :=
  Sys (World bootstrapped [] ∅ 0 t0 [] []) P_begin C_top.

(** One whole turn of the body of [main_loop]'s [while], undisturbed. *)
Definition main_loop_body (cfg : config) (i : inputs) (w : world) : world :=
  match polled i with
  | Some (c :: t') =>
      let txn_id := c :: t' in
      if bool_decide (is_Some (status w !! txn_id)) then w
      else
        let w1 := set_status txn_id Queued w in
        let w2 := log_payment cfg (sheet_env i) txn_id (lit "5") w1 in
        let w3 := set_queue (queue w2 ++ [txn_id]) w2 in
        log "INFO" (ENVELOPE :: lit " Queued " ++ txn_id ++ lit ". Queue size: "
                      ++ str_of_Z (Z.of_nat (length (queue w3)))) w3
  | _ => w
  end.

(** The moves a status entry may make in one step. *)
Inductive status_move : option status_t -> option status_t -> Prop :=
| move_none o : status_move o o
| move_enter : status_move None (Some Queued)
| move_start : status_move (Some Queued) (Some Processing)
| move_done : status_move (Some Processing) (Some Completed)
| move_fail : status_move (Some Processing) (Some Failed).

(** What a status may have become later in a run, given what it is now. *)
Definition may_become (a b : option status_t) : bool :=
  match a, b with
  | None, _ => true
  | Some Queued, Some _ => true
  | Some Processing, Some (Processing | Completed | Failed) => true
  | Some Completed, Some Completed => true
  | Some Failed, Some Failed => true
  | _, _ => false
  end.

(** *** What holds in every state the process reaches *)

(** The identifier [main_loop] has tested and not yet entered. *)
Definition holds_fresh (pc : ppc) : option str :=
  match pc with
  | P_set t => Some t
  | _ => None
  end.

(** The identifier [main_loop] has entered as Queued and not yet appended. *)
Definition holds_queued (pc : ppc) : option str :=
  match pc with
  | P_log t | P_append t => Some t
  | _ => None
  end.

(** The identifier [processor] has popped, with the status it has. *)
Definition in_flight (pc : cpc) : option (str * status_t) :=
  match pc with
  | C_mark t => Some (t, Queued)
  | C_send t | C_final t _ => Some (t, Processing)
  | _ => None
  end.

Record Inv (cfg : config) (s : sys) : Prop := {
  inv_nodup : NoDup (queue (sw s));
  inv_queue : forall t, t ∈ queue (sw s) -> status (sw s) !! t = Some Queued;
  inv_fresh : forall t, holds_fresh (pp s) = Some t -> status (sw s) !! t = None;
  inv_prod : forall t, holds_queued (pp s) = Some t ->
                       status (sw s) !! t = Some Queued /\ t ∉ queue (sw s);
  inv_cons : forall t v, in_flight (cp s) = Some (t, v) ->
                         status (sw s) !! t = Some v /\ t ∉ queue (sw s);
  inv_apart : forall t t' v, holds_queued (pp s) = Some t ->
                             in_flight (cp s) = Some (t', v) -> t <> t';
  inv_now : cp s = C_now -> queue (sw s) <> [];
  inv_check : forall now, cp s = C_check now ->
                          queue (sw s) <> [] /\ (now <= clock (sw s))%Q;
  inv_pop : cp s = C_pop ->
            queue (sw s) <> [] /\
            (inject_Z (COOLDOWN_SECONDS cfg)
               <= clock (sw s) - last_processed (sw s))%Q;
  inv_alive : forall e, cp s <> C_crashed e
}.

(** *** The history of the dispatch queue *)

(** What the step [a] taken in [s] appends to the queue. *)
Definition appended_by (s : sys) (a : action) : list str :=
  match a, pp s with
  | Producer _, P_append t => [t]
  | _, _ => []
  end.

(** What the step [a] taken in [s] pops from the queue. *)
Definition popped_by (s : sys) (a : action) : list str :=
  match a, cp s, queue (sw s) with
  | Consumer _, C_pop, t :: _ => [t]
  | _, _, _ => []
  end.

(** Everything appended, in order, while [acts] run from [s]. *)
Fixpoint appended (cfg : config) (s : sys) (acts : list action) : list str :=
  match acts with
  | [] => []
  | a :: acts' => appended_by s a ++ appended cfg (step cfg s a) acts'
  end.

(** Everything popped, in order, while [acts] run from [s]. *)
Fixpoint popped (cfg : config) (s : sys) (acts : list action) : list str :=
  match acts with
  | [] => []
  | a :: acts' => popped_by s a ++ popped cfg (step cfg s a) acts'
  end.

(** [main_loop] may still append [t]: it has not entered it, or holds it. *)
Definition appendable (s : sys) (t : str) : Prop :=
  status (sw s) !! t = None \/ holds_queued (pp s) = Some t.


(** The attempt publishes and the broker accepts. *)
Definition published (o : outcome) : bool :=
  match o with
  | Published _ => true
  | _ => false
  end.

(** What precedes the group in the two reference patterns. *)
Definition reference_lead : list Re.regex :=
  [ Re.word (lit "Reference"); Re.Star Re.CSpace;
    Re.Opt (Re.Alt (seqs [Re.word (lit "No"); Re.Opt (Re.Lit (ord "."))])
                   (Re.word (lit "number")));
    Re.Star Re.CSpace; Re.Opt (Re.Cls (Re.COneOf (lit ":-"))); Re.Star Re.CSpace ].

Definition transaction_lead : list Re.regex :=
  [ Re.word (lit "transaction reference number"); Re.Star Re.CSpace;
    Re.Opt (Re.word (lit "is"));
    Re.Star Re.CSpace; Re.Opt (Re.Cls (Re.COneOf (lit ":-"))); Re.Star Re.CSpace ].

(** The text does not go on with a digit. *)
Definition no_digit_next (U : unicode) (post : str) : Prop :=
  match post with
  | [] => True
  | c :: _ => is_digit U c = false
  end.

(** ASCII letters in upper case, everything else as it is. *)
Definition ascii_upper (c : N) : N := if ascii_lower_p c then c - 32 else c.

(** *** Inbox scanner *)

(** A message number as [mail.search] returns it: a byte string. *)
Definition uid := list N.

(** A fetched message: its payload when it is not multipart, otherwise the
    content type and the payload of each part in the order of [msg.walk()].
    Payloads are given decoded. *)
Inductive message :=
| Simple (payload : str)
| Multipart (parts : list (string * str)).

Record mail_config := { EMAIL_ID : option str; EMAIL_PASSWORD : option str }.

(** What the mail server answers during one call of [poll_email]. *)
Record mailbox := {
  connect : option exn;         (* what connecting and logging in raise *)
  unseen : result (list uid);   (* select and search: data[0].split() *)
  fetch : uid -> result message;
  store : uid -> option exn     (* what marking the message read raises *)
}.

Inductive imap_op :=
| ILogin
| ISearch
| IFetch (u : uid)
| IStore (u : uid)
| ILogout.

#[global] Instance imap_op_eq_dec : EqDecision imap_op.
Proof. solve_decision. Defined.

(** [_imap_login()] *)
Definition _imap_login (mc : mail_config) (mb : mailbox) : result unit :=
  if falsy (EMAIL_ID mc) || falsy (EMAIL_PASSWORD mc) then
    Raise (Exn RuntimeError
             (lit "EMAIL_ID or EMAIL_PASSWORD missing from environment."))
  else match connect mb with
       | Some e => Raise e
       | None => Ok tt
       end.

(** The payload of the first text/plain part, or the empty text. *)
Fixpoint first_plain (parts : list (string * str)) : str :=
  match parts with
  | [] => []
  | (content_type, payload) :: parts' =>
      if String.eqb content_type "text/plain" then payload
      else first_plain parts'
  end.

Definition body_of (msg : message) : str :=
  match msg with
  | Simple payload => payload
  | Multipart parts => first_plain parts
  end.

(** [txn_id in seen_txn_ids]; no text equals [None]. *)
Definition recorded (w : world) (txn_id : option str) : bool :=
  match txn_id with
  | Some t => bool_decide (t ∈ seen_txn_ids w)
  | None => false
  end.

(** [f"{txn_id}"] *)
Definition show_id (txn_id : option str) : str :=
  match txn_id with
  | Some t => t
  | None => lit "None"
  end.

(** How the [for] loop over the message numbers ends. *)
Inductive scan_end :=
| Yield (txn_id : option str)   (* return txn_id *)
| Exhausted                     (* the loop ran out *)
| Broke (e : exn).              (* a call raised *)

(** The [for] loop of [poll_email]: how it ends, [seen_uids] and the world
    afterwards, and the commands sent to the server. *)
Fixpoint scan (U : unicode) (mb : mailbox) (uids : list uid)
  (seen : gset uid) (w : world) : scan_end * gset uid * world * list imap_op :=
  match uids with
  | [] => (Exhausted, seen, w, [])
  | u :: uids' =>
      if bool_decide (u ∈ seen) then scan U mb uids' seen w
      else
        match fetch mb u with
        | Raise e => (Broke e, seen, w, [IFetch u])
        | Ok msg =>
            let body := body_of msg in
            let '(r, seen', w', ops) :=
              if bool_decide (body = []) then scan U mb uids' seen w
              else if negb (_is_valid_payment U (lower U body)) then
                     scan U mb uids' seen w
              else
                let txn_id := _extract_txn_id U body (clock w) in
                if recorded w txn_id then scan U mb uids' seen w
                else
                  match store mb u with
                  | Some e => (Broke e, {[u]} ∪ seen, w, [IStore u])
                  | None =>
                      (Yield txn_id, {[u]} ∪ seen,
                       log "INFO" (lit "Found new payment. UID: " ++ u
                                     ++ lit " -> TXN_ID: " ++ show_id txn_id) w,
                       [IStore u])
                  end in
            (r, seen', w', IFetch u :: ops)
        end
  end.

(** [reversed(ids[-30:])]: the last thirty, the most recent first. *)
Definition window (ids : list uid) : list uid :=
  rev (drop (length ids - 30) ids).

(** [poll_email()]: what it returns, [seen_uids] and the world afterwards,
    and the commands sent to the server. *)
Definition poll_email (U : unicode) (mc : mail_config) (mb : mailbox)
  (seen : gset uid) (w : world) : option str * gset uid * world * list imap_op :=
  let failed e := log "ERROR" (lit "Error polling email: " ++ exn_text e) in
  match _imap_login mc mb with
  | Raise e => (None, seen, failed e w, [])
  | Ok _ =>
      match unseen mb with
      | Raise e => (None, seen, failed e w, [ILogin; ISearch; ILogout])
      | Ok ids =>
          let '(r, seen', w', ops) := scan U mb (window ids) seen w in
          let sent := [ILogin; ISearch] ++ ops ++ [ILogout] in
          match r with
          | Yield txn_id => (txn_id, seen', w', sent)
          | Exhausted => (None, seen', w', sent)
          | Broke e => (None, seen', failed e w', sent)
          end
      end
  end.

(** The loop passes over the message [u]. *)
Definition passed_over (U : unicode) (mb : mailbox) (seen : gset uid)
  (w : world) (u : uid) : Prop :=
  u ∈ seen \/
  exists msg, fetch mb u = Ok msg /\
    (body_of msg = [] \/ classify U (body_of msg) = false \/
     recorded w (_extract_txn_id U (body_of msg) (clock w)) = true).

(** The message [u] is a new payment with identifier [txn_id]. *)
Definition qualifies (U : unicode) (mb : mailbox) (seen : gset uid)
  (w : world) (u : uid) (txn_id : option str) : Prop :=
  (u ∉ seen) /\
  exists msg, fetch mb u = Ok msg /\ body_of msg <> [] /\
    classify U (body_of msg) = true /\
    _extract_txn_id U (body_of msg) (clock w) = txn_id /\
    recorded w txn_id = false.

(** One turn of [main_loop] with the scanner in it: [poll_email()], then the
    body of the loop on what it returned. *)
Definition main_loop_turn (U : unicode) (cfg : config) (mc : mail_config)
  (mb : mailbox) (i : inputs) (seen : gset uid) (w : world)
  : gset uid * world :=
  let '(r, seen', w', _) := poll_email U mc mb seen w in
  (seen',
   main_loop_body cfg
     {| polled := r; sheet_env := sheet_env i; broker := broker i |} w').

(** What the commands [ops] of a loop over [uids] are bound by, as far as
    the message [u] goes. *)
Definition sends_within (uids : list uid) (seen seen' : gset uid)
  (ops : list imap_op) (u : uid) : Prop :=
  (IFetch u ∈ ops -> u ∈ uids /\ (u ∉ seen)) /\
  (IStore u ∈ ops -> u ∈ uids /\ (u ∉ seen) /\ seen' = {[u]} ∪ seen) /\
  (ILogin ∉ ops) /\ (ISearch ∉ ops) /\ (ILogout ∉ ops) /\
  (length ops <= 2 * length uids)%nat.

(** How a loop over [uids] can have ended in [r], with [seen'], [w'] and
    the commands [ops]. *)
Definition scan_ends (U : unicode) (mb : mailbox) (seen : gset uid) (w : world)
  (uids : list uid) (r : scan_end) (seen' : gset uid) (w' : world)
  (ops : list imap_op) : Prop :=
  match r with
  | Yield o =>
      exists l1 u l2,
        uids = l1 ++ u :: l2 /\ Forall (passed_over U mb seen w) l1 /\
        qualifies U mb seen w u o /\ store mb u = None /\
        seen' = {[u]} ∪ seen /\
        w' = log "INFO" (lit "Found new payment. UID: " ++ u
                           ++ lit " -> TXN_ID: " ++ show_id o) w /\
        IStore u ∈ ops
  | Exhausted =>
      Forall (passed_over U mb seen w) uids /\ seen' = seen /\ w' = w
  | Broke e =>
      exists l1 u l2,
        uids = l1 ++ u :: l2 /\ Forall (passed_over U mb seen w) l1 /\ w' = w /\
        (((u ∉ seen) /\ fetch mb u = Raise e /\ seen' = seen) \/
         (exists o, qualifies U mb seen w u o /\ store mb u = Some e /\
                    seen' = {[u]} ∪ seen /\ IStore u ∈ ops))
  end.

(** The step does not have the key "Asia/Mumbai" in its time zone
    database. *)
Definition zone_missing (a : action) : Prop :=
  match a with
  | Producer i => zones (sheet_env i) "Asia/Mumbai"%string = false
  | _ => True
  end.

End Zenorc.

(** * main.py *)

Module Main.

Definition OUTPUT_DIR : str := lit "ai_agents".
Definition CONTEXT_FILE : str := lit "repo_context.txt".
Definition TEMP_CLONE_DIR : str := lit "cloned_repo".

Definition IGNORE_DIRS : list str :=
  map lit [".git"; "__pycache__"; "node_modules"; "venv"; "env"; ".idea";
           ".vscode"; "dist"; "build"]%string.

Definition ALLOWED_EXTENSIONS : list str :=
  map lit [".py"; ".js"; ".ts"; ".jsx"; ".tsx"; ".html"; ".css"; ".java";
           ".cpp"; ".md"; ".json"; ".sql"; ".yaml"; ".yml"; ".sh"; ".rb";
           ".go"; ".rs"; ".php"; ".cs"; ".swift"; ".kt"]%string.

(** [x in S] for a set of strings. *)
Definition in_set (x : str) (S : list str) : bool := bool_decide (x ∈ S).

(** ** [os.path] on a POSIX system *)

Definition SLASH : N := ord "/".
Definition DOT : N := ord ".".
Definition NEWLINE : N := 10.

(** [s.rfind(c)]: the index of the last [c], or -1. *)
Fixpoint rfind (c : N) (s : str) : Z :=
  match s with
  | [] => (-1)%Z
  | x :: s' =>
      let r := rfind c s' in
      if (0 <=? r)%Z then (r + 1)%Z else if x =? c then 0%Z else (-1)%Z
  end.

(** [os.path.basename(p)]: [i = p.rfind('/') + 1; return p[i:]] *)
Definition basename (p : str) : str :=
  drop (Z.to_nat (rfind SLASH p + 1)) p.

Definition endswith_slash (a : str) : bool :=
  match last a with
  | Some c => c =? SLASH
  | None => false
  end.

(** [os.path.join(a, b)] *)
Definition join (a b : str) : str :=
  match b with
  | c :: _ => if c =? SLASH then b
              else if bool_decide (a = []) || endswith_slash a then a ++ b
                   else a ++ SLASH :: b
  | [] => if bool_decide (a = []) || endswith_slash a then a ++ b
          else a ++ SLASH :: b
  end.

(** [os.path.splitext(p)[1]]: the text from the last dot of the last
    component on, unless only dots come before it in that component. *)
Definition splitext_ext (p : str) : str :=
  let sepIndex := rfind SLASH p in
  let dotIndex := rfind DOT p in
  if (sepIndex <? dotIndex)%Z then
    let stem := take (Z.to_nat (dotIndex - (sepIndex + 1)))
                  (drop (Z.to_nat (sepIndex + 1)) p) in
    if forallb (fun c => c =? DOT) stem then []
    else drop (Z.to_nat dotIndex) p
  else [].





(** ** Files written and served *)

Inductive fs_op :=
| OpWrite (path content : str)   (* open(path, "w") and write *)
| OpExists (path : str)          (* os.path.exists(path) *)
| OpServe (path : str).          (* FileResponse(path) *)

Definition op_path (o : fs_op) : str :=
  match o with
  | OpWrite p _ | OpExists p | OpServe p => p
  end.

(** [save_code_tool(filename, content)]; [open_raises] is what opening the
    path for writing raises. *)
Definition save_code_tool (open_raises : str -> option exn)
  (filename content : str) : list fs_op * result str :=
  let safe_name := basename filename in
  let path := join OUTPUT_DIR safe_name in
  match open_raises path with
  | Some e => ([OpWrite path []], Raise e)
  | None => ([OpWrite path content], Ok (lit "Saved to " ++ safe_name))
  end.

Inductive download_reply :=
| FileResponse (path filename : str)
| NotFound.                       (* {"error": "File not found"} *)

(** [download_file(filename)] *)
Definition download_file (exists_ : str -> bool) (filename : str)
  : list fs_op * download_reply :=
  let safe_name := basename filename in
  let file_path := join OUTPUT_DIR safe_name in
  if exists_ file_path
  then ([OpExists file_path; OpServe file_path], FileResponse file_path filename)
  else ([OpExists file_path], NotFound).

(** ** The context blob *)

(** A directory tree. A file whose [data] is [None] cannot be opened or
    decoded as UTF-8. *)
Unset Elimination Schemes.
Inductive node :=
| File (name : str) (data : option str)
| Dir (name : str) (children : list node).
Set Elimination Schemes.

Definition MAX_SIZE : Z := 2 * 1024 * 1024.

(** The locals [content], [file_count] and [current_size]. *)
Record acc := Acc { content : str; file_count : Z; current_size : Z }.

(** [f"\n\n--- FILE: {file} ---\n{file_content}\n--- END FILE ---\n"] *)
Definition text_chunk (file file_content : str) : str :=
  [NEWLINE; NEWLINE] ++ lit "--- FILE: " ++ file ++ lit " ---" ++ [NEWLINE]
    ++ file_content ++ [NEWLINE] ++ lit "--- END FILE ---" ++ [NEWLINE].

(** The loop [for file in files] of one directory. *)
Fixpoint scan_files (files : list node) (a : acc) : acc :=
  match files with
  | [] => a
  | Dir _ _ :: rest => scan_files rest a
  | File file data :: rest =>
      if in_set (splitext_ext file) ALLOWED_EXTENSIONS then
        match data with
        | None => scan_files rest a                      (* except: pass *)
        | Some file_content =>
            let chunk := text_chunk file file_content in
            if (MAX_SIZE <? current_size a + Z.of_nat (length chunk))%Z
            then a                                       (* break *)
            else scan_files rest
                   (Acc (content a ++ chunk) (file_count a + 1)
                      (current_size a + Z.of_nat (length chunk)))
        end
      else scan_files rest a
  end.

(** The loop over [os.walk(root_path)], top down: the files of a directory,
    then its subdirectories that are not in [IGNORE_DIRS]. *)
Fixpoint walk (n : node) (a : acc) : acc :=
  match n with
  | File _ _ => a
  | Dir _ children =>
      (fix descend (l : list node) (a : acc) : acc :=
         match l with
         | [] => a
         | c :: l' =>
             match c with
             | File _ _ => descend l' a
             | Dir d _ =>
                 descend l' (if in_set d IGNORE_DIRS then a else walk c a)
             end
         end) children (scan_files children a)
  end.

(** [create_context(root_path, session_id)]; [root] is what is at
    [root_path]. The result is the value returned and the file written. *)
Definition create_context (root : option node) (session_id : str)
  : result (Z * str) * option (str * str) :=
  match root with
  | None => (Raise (Exn FileNotFoundError (lit "Path not found.")), None)
  | Some n =>
      let a := walk n (Acc [] 0 0) in
      let ctx_filename := CONTEXT_FILE ++ lit "_" ++ session_id ++ lit ".txt" in
      (Ok (file_count a, ctx_filename), Some (ctx_filename, content a))
  end.

(** What the loop keeps true of its locals: [current_size] is the length of
    [content], and it is within the limit. *)
Definition within_limit (a : acc) : Prop :=
  current_size a = Z.of_nat (length (content a)) /\
  (current_size a <= MAX_SIZE)%Z.

(** ** Cloning and the ingest endpoint *)

Inductive git_outcome :=
| GitMissing                     (* subprocess.run raises FileNotFoundError *)
| GitFailed (stderr : str)       (* returncode != 0 *)
| GitCloned.

Inductive proc_event :=
| EvCleanup (path : str)
| EvPrint (line : str)
| EvGitClone (url target_dir : str).

Definition GLOBE : N := 127757.  (* U+1F30D *)

(** [clone_github_repo(url, session_id)] *)
Definition clone_github_repo (git : git_outcome) (url session_id : str)
  : list proc_event * result str :=
  let target_dir := TEMP_CLONE_DIR ++ lit "_" ++ session_id in
  let before := [EvCleanup target_dir;
                 EvPrint (GLOBE :: lit " Cloning " ++ url ++ lit "...")] in
  if negb (startswith (lit "https://github.com/") url) then
    (before,
     Raise (Exn ValueError
              (lit "Security Error: Only 'https://github.com/' URLs are allowed.")))
  else
    (before ++ [EvGitClone url target_dir],
     match git with
     | GitMissing => Raise (Exn PlainException (lit "Git is not installed."))
     | GitFailed stderr =>
         Raise (Exn PlainException (lit "Git Clone Failed: " ++ stderr))
     | GitCloned => Ok target_dir
     end).

Record SessionRequest := { session_id : str; data : option str }.

(** What the file system, the version-control client and the model API
    answer during one request. *)
Record ingest_env := {
  git : git_outcome;
  at_path : str -> option node;
  upload : result str            (* the uploaded file's name *)
}.

(** [raise HTTPException(status_code=..., detail=...)]; the text of such an
    exception is the status code, a colon and the detail. *)
Definition http_exception (status_code : Z) (detail : str) : exn :=
  Exn (HTTPException status_code) (str_of_Z status_code ++ lit ": " ++ detail).

(** The body of the [try] of [ingest_endpoint]. *)
Definition ingest_try (E : ingest_env) (req : SessionRequest)
  : list proc_event * result (str * Z) :=
  match data req with
  | None =>
      ([], Raise (Exn AttributeError
                    (lit "'NoneType' object has no attribute 'startswith'")))
  | Some target =>
      let '(evs, cloned) :=
        if startswith (lit "http") target then
          match clone_github_repo (git E) target (session_id req) with
          | (evs, Ok dir) => (evs, Ok dir)
          | (evs, Raise ve) =>
              (* except ValueError as ve: raise HTTPException(400, str(ve)) *)
              if bool_decide (exn_cls ve = ValueError)
              then (evs, Raise (http_exception 400 (exn_text ve)))
              else (evs, Raise ve)
          end
        else ([], Ok target) in
      match cloned with
      | Raise e => (evs, Raise e)
      | Ok target' =>
          match create_context (at_path E target') (session_id req) with
          | (Raise e, _) => (evs, Raise e)
          | (Ok (count, ctx_path), _) =>
              match upload E with
              | Raise e => (evs, Raise e)
              | Ok file_name => (evs, Ok (file_name, count))
              end
          end
      end
  end.

(** [ingest_endpoint(req)]: every exception of the body, the framework's
    [HTTPException] included, derives from [Exception] and is taken by the
    outer handler, which raises [HTTPException(500, str(e))]. *)
Definition ingest_endpoint (E : ingest_env) (req : SessionRequest)
  : list proc_event * result (str * Z) :=
  match ingest_try E req with
  | (evs, Ok r) => (evs, Ok r)
  | (evs, Raise e) => (evs, Raise (http_exception 500 (exn_text e)))
  end.

(** The status of the HTTP response the framework sends for what the
    handler returned or raised. *)
Definition response_status {A} (r : result A) : Z :=
  match r with
  | Ok _ => 200
  | Raise (Exn (HTTPException status_code) _) => status_code
  | Raise _ => 500
  end.

Definition is_git_clone (e : proc_event) : bool :=
  match e with
  | EvGitClone _ _ => true
  | _ => false
  end.

(** ** What the context blob is made of *)

(** The name and text of a file the loop takes: readable, with an allowed
    extension. *)
Definition included (f : node) : option (str * str) :=
  match f with
  | File file (Some file_content) =>
      if in_set (splitext_ext file) ALLOWED_EXTENSIONS
      then Some (file, file_content) else None
  | _ => None
  end.

(** The files the walk comes to, in its order: those of a directory, then
    those of its subdirectories that are not ignored. *)
Fixpoint visible (n : node) : list (str * str) :=
  match n with
  | File _ _ => []
  | Dir _ children =>
      omap included children ++
      (fix below (l : list node) : list (str * str) :=
         match l with
         | [] => []
         | c :: l' =>
             match c with
             | File _ _ => below l'
             | Dir d _ =>
                 (if in_set d IGNORE_DIRS then [] else visible c) ++ below l'
             end
         end) children
  end.

(** The chunks of the files [l], one after the other. *)
Definition chunks (l : list (str * str)) : str :=
  concat (map (fun f => text_chunk (fst f) (snd f)) l).

(** Going from [a] to [a'], the loop took the files [l]: their chunks were
    appended, and counted. *)
Definition takes (a : acc) (l : list (str * str)) (a' : acc) : Prop :=
  content a' = content a ++ chunks l /\
  file_count a' = (file_count a + Z.of_nat (length l))%Z /\
  current_size a' = (current_size a + Z.of_nat (length (chunks l)))%Z.

(** All of [v] still fits after [a]. *)
Definition fits (a : acc) (v : list (str * str)) : Prop :=
  (current_size a + Z.of_nat (length (chunks v)) <= MAX_SIZE)%Z.

(** ** Sessions and the model endpoints *)

(** One entry of [SESSIONS]; a message of the history is a role and a
    content, the content being what the request carried (possibly None). *)
Record session := Session {
  history : list (string * option str);
  file_name : option str;
  analysis : option str;
  generated_file : option str
}.

Definition new_session : session := Session [] None None None.

(** [get_session(session_id)]: the store afterwards and the entry. The entry
    returned is the one in the store: what a handler assigns to it is
    written back under the same key. *)
Definition get_session (sid : str) (S : gmap str session)
  : gmap str session * session :=
  match S !! sid with
  | Some s => (S, s)
  | None => (<[sid := new_session]> S, new_session)
  end.

Inductive history_reply :=
| Stored (s : session)
| Blank.       (* {"history": [], "file_name": None, "analysis": None} *)

(** [get_history_endpoint(session_id)] *)
Definition get_history_endpoint (sid : str) (S : gmap str session)
  : history_reply :=
  match S !! sid with
  | Some s => Stored s
  | None => Blank
  end.

Definition truthy (o : option str) : bool :=
  match o with
  | Some (_ :: _) => true
  | _ => false
  end.

(** What the model API answers during one call of [analyze_endpoint]. *)
Record analyze_env := {
  a_configure : option exn;    (* what os.environ["GEMINI_API_KEY"] and
                                  genai.configure raise *)
  a_get_file : option exn;     (* what genai.get_file raises *)
  a_text : result str          (* response.text, or what generating raises *)
}.

Definition with_analysis (text : str) (s : session) : session :=
  Session (history s ++
             [("model"%string,
               Some (lit "**Analysis Complete:**" ++ [NEWLINE] ++ text))])
    (file_name s) (Some text) (generated_file s).

(** The body of the [try] of [analyze_endpoint]. *)
Definition analyze_try (A : analyze_env) (S : gmap str session)
  (req : SessionRequest) : gmap str session * result str :=
  let '(S1, s) := get_session (session_id req) S in
  if negb (truthy (file_name s)) then
    (S1, Raise (http_exception 400 (lit "No repo loaded.")))
  else
    match a_configure A with
    | Some e => (S1, Raise e)
    | None =>
        match a_get_file A with
        | Some e => (S1, Raise e)
        | None =>
            match a_text A with
            | Raise e => (S1, Raise e)
            | Ok text => (<[session_id req := with_analysis text s]> S1, Ok text)
            end
        end
    end.

(** [analyze_endpoint(req)] *)
Definition analyze_endpoint (A : analyze_env) (S : gmap str session)
  (req : SessionRequest) : gmap str session * result str :=
  match analyze_try A S req with
  | (S', Ok text) => (S', Ok text)
  | (S', Raise e) => (S', Raise (http_exception 500 (exn_text e)))
  end.

(** A part of the model's response that calls a function; the declaration
    of the tool requires both arguments. *)
Record fn_call := { fc_name : string; fc_filename : str; fc_content : str }.

(** What the model API and the file system answer during one call of
    [refactor_endpoint] or [chat_endpoint]. *)
Record model_env := {
  m_configure : option exn;    (* what os.environ["GEMINI_API_KEY"] and
                                  genai.configure raise *)
  m_get_file : option exn;
  m_parts : result (list (option fn_call));  (* the parts, or what generating raises *)
  m_text : result (option str);              (* response.text *)
  m_open : str -> option exn                 (* what opening for writing raises *)
}.

(** The loop over the parts in [refactor_endpoint]: the files touched, and
    the name of the last file saved, or what a save raised. *)
Fixpoint save_parts (open_raises : str -> option exn)
  (parts : list (option fn_call)) (result_file : option str)
  : list fs_op * result (option str) :=
  match parts with
  | [] => ([], Ok result_file)
  | None :: parts' => save_parts open_raises parts' result_file
  | Some fc :: parts' =>
      if String.eqb (fc_name fc) "save_code_tool" then
        match save_code_tool open_raises (fc_filename fc) (fc_content fc) with
        | (ops, Raise e) => (ops, Raise e)
        | (ops, Ok _) =>
            let '(ops', r) := save_parts open_raises parts' (Some (fc_filename fc)) in
            (ops ++ ops', r)
        end
      else save_parts open_raises parts' result_file
  end.

Inductive refactor_reply :=
| Refactored (generated : str)    (* {"status": "success", ...} *)
| NoFile (message : option str).  (* {"status": "no_file", ...} *)

Definition with_generated (f : str) (s : session) : session :=
  Session (history s ++
             [("model"%string,
               Some (lit "I have refactored and saved **" ++ f ++ lit "**."))])
    (file_name s) (analysis s) (Some f).

(** The body of the [try] of [refactor_endpoint]. *)
Definition refactor_try (M : model_env) (S : gmap str session)
  (req : SessionRequest) : gmap str session * list fs_op * result refactor_reply :=
  let '(S1, s) := get_session (session_id req) S in
  if negb (truthy (analysis s)) then
    (S1, [], Raise (http_exception 400 (lit "Run analysis first.")))
  else
    match m_configure M with
    | Some e => (S1, [], Raise e)
    | None =>
        match m_get_file M with
        | Some e => (S1, [], Raise e)
        | None =>
            match m_parts M with
            | Raise e => (S1, [], Raise e)
            | Ok parts =>
                match save_parts (m_open M) parts None with
                | (ops, Raise e) => (S1, ops, Raise e)
                | (ops, Ok result_file) =>
                    match result_file with
                    | Some (c :: f') =>
                        (<[session_id req := with_generated (c :: f') s]> S1, ops,
                         Ok (Refactored (c :: f')))
                    | _ =>
                        match m_text M with
                        | Raise e => (S1, ops, Raise e)
                        | Ok message => (S1, ops, Ok (NoFile message))
                        end
                    end
                end
            end
        end
    end.

(** [refactor_endpoint(req)] *)
Definition refactor_endpoint (M : model_env) (S : gmap str session)
  (req : SessionRequest) : gmap str session * list fs_op * result refactor_reply :=
  match refactor_try M S req with
  | (S', ops, Ok r) => (S', ops, Ok r)
  | (S', ops, Raise e) => (S', ops, Raise (http_exception 500 (exn_text e)))
  end.

(** The loop over the parts in [chat_endpoint]: each save adds a note to
    the reply. *)
Fixpoint chat_parts (open_raises : str -> option exn)
  (parts : list (option fn_call)) (reply_text : str)
  : list fs_op * result str :=
  match parts with
  | [] => ([], Ok reply_text)
  | None :: parts' => chat_parts open_raises parts' reply_text
  | Some fc :: parts' =>
      if String.eqb (fc_name fc) "save_code_tool" then
        match save_code_tool open_raises (fc_filename fc) (fc_content fc) with
        | (ops, Raise e) => (ops, Raise e)
        | (ops, Ok _) =>
            let '(ops', r) :=
              chat_parts open_raises parts'
                (reply_text ++ [NEWLINE; NEWLINE; 9889] ++ lit " [Tool Used] Saved changes to **"
                   ++ fc_filename fc ++ lit "**.") in
            (ops ++ ops', r)
        end
      else chat_parts open_raises parts' reply_text
  end.

Definition with_message (role : string) (content : option str) (s : session)
  : session :=
  Session (history s ++ [(role, content)]) (file_name s) (analysis s)
    (generated_file s).

(** The body of the [try] of [chat_endpoint], as far as the store, the files
    and the reply go: the user's message is appended to the history once the
    API key is configured and before the model is called. What [get_file]
    raises there is dropped by the bare [except]. *)
Definition chat_try (M : model_env) (S : gmap str session)
  (req : SessionRequest) : gmap str session * list fs_op * result str :=
  let '(S1, s) := get_session (session_id req) S in
  match m_configure M with
  | Some e => (S1, [], Raise e)
  | None =>
      let s1 := with_message "user" (data req) s in
      let S2 := <[session_id req := s1]> S1 in
      match m_parts M with
      | Raise e => (S2, [], Raise e)
      | Ok parts =>
          match m_text M with
          | Raise e => (S2, [], Raise e)
          | Ok text =>
              let reply_text := match text with
                                | Some (c :: t') => c :: t'
                                | _ => []
                                end in
              match chat_parts (m_open M) parts reply_text with
              | (ops, Raise e) => (S2, ops, Raise e)
              | (ops, Ok reply) =>
                  (<[session_id req := with_message "model" (Some reply) s1]> S2,
                   ops, Ok reply)
              end
          end
      end
  end.

(** [chat_endpoint(req)] *)
Definition chat_endpoint (M : model_env) (S : gmap str session)
  (req : SessionRequest) : gmap str session * list fs_op * result str :=
  match chat_try M S req with
  | (S', ops, Ok r) => (S', ops, Ok r)
  | (S', ops, Raise e) => (S', ops, Raise (http_exception 500 (exn_text e)))
  end.

End Main.

(** * Concrete inputs used in examples *)

Module Samples.
Import Zenorc.

(** A Unicode table with nothing outside ASCII. *)
Definition ascii_only : unicode :=
  {| uni_space := fun _ => false; uni_digit := fun _ => false;
     uni_alnum := fun _ => false; uni_ci := fun _ _ => false;
     uni_lower := fun c => [c] |}.

Definition cfg : config :=
  {| GSHEET_URL := Some (lit "https://docs.google.com/spreadsheets/d/x");
     GSHEET_CREDS_PATH := lit "/etc/secrets/Zenorc.json";
     creds_is_file := true;
     MQTT_USERNAME := Some (lit "zenorc");
     COOLDOWN_SECONDS := 40 |}.

Definition refused : exn :=
  Exn (LibraryError "ConnectionRefusedError") (lit "[Errno 111] Connection refused").

(** A broker that refuses the first two connections and accepts the third. *)
Definition third_time_lucky (attempt : Z) : attempt_env :=
  if (attempt <? 3)%Z
  then {| outcome_of := ConnectRaises refused; connected_at_exit := false |}
  else {| outcome_of := Published 1; connected_at_exit := true |}.

(** A broker that accepts the connection and never acknowledges it. *)
Definition silent_broker (attempt : Z) : attempt_env :=
  {| outcome_of := AckTimeout; connected_at_exit := false |}.

(** A time zone database as distributed: it has no key "Asia/Mumbai". *)
Definition iana_zones (key : string) : bool :=
  String.eqb key "UTC" || String.eqb key "Asia/Kolkata".




Definition txn : str := lit "123456789012".


Definition empty_world : world := World ∅ [] ∅ 0 100 [] [].


(** A notification as a bank words it. *)
Definition notice : str :=
  lit "Dear customer, Rs. 5.00 credited to your a/c. UPI Reference No. 123456789012.".

Definition mail_cfg : mail_config :=
  {| EMAIL_ID := Some (lit "shop@example.com");
     EMAIL_PASSWORD := Some (lit "app-password") |}.

(** An inbox with one unread message, the notice; the server refuses to mark
    it read when [store_fails]. *)
Definition inbox (store_fails : bool) : mailbox :=
  {| connect := None;
     unseen := Ok [lit "7"];
     fetch := fun _ => Ok (Multipart [("multipart/alternative"%string, []);
                                      ("text/plain"%string, notice);
                                      ("text/html"%string, lit "<p>...</p>")]);
     store := fun _ => if store_fails
                       then Some (Exn (LibraryError "abort") (lit "socket error"))
                       else None |}.

(** A spreadsheet that works, on a system without the key "Asia/Mumbai". *)
Definition working_sheet_no_zone : ledger_env :=
  {| open_sheet := None; zones := iana_zones;
     today := lit "2026-01-01"; time_of_day := lit "10:00:00";
     append_row := None |}.

Definition found_no_zone (r : option str) : inputs :=
  {| polled := r; sheet_env := working_sheet_no_zone; broker := third_time_lucky |}.

(** The producer finds [txn] and goes through a whole turn. *)
Definition turn_without_zone : list action :=
  [ Producer (found_no_zone None); Producer (found_no_zone (Some txn));
    Producer (found_no_zone None); Producer (found_no_zone None);
    Producer (found_no_zone None); Producer (found_no_zone None);
    Producer (found_no_zone None) ].

(** A model that answers with one call of the save tool. *)
Definition saving_model : Main.model_env :=
  {| Main.m_configure := None;
     Main.m_get_file := None;
     Main.m_parts := Ok [None;
                         Some {| Main.fc_name := "save_code_tool";
                                 Main.fc_filename := lit "src/app.py";
                                 Main.fc_content := lit "print(2)" |}];
     Main.m_text := Ok None;
     Main.m_open := fun _ => None |}.

(** A store in which the session has a repository loaded and analysed. *)
Definition analysed_store : gmap str Main.session :=
  {[ lit "s1" := Main.Session [] (Some (lit "files/abc")) (Some (lit "messy: app.py")) None ]}.

(** A small repository. *)
Definition repo : Main.node :=
  Main.Dir (lit "repo")
    [ Main.File (lit "a.py") (Some (lit "print(1)"));
      Main.Dir (lit ".git") [Main.File (lit "hook.py") (Some (lit "pass"))];
      Main.File (lit "logo.png") None;
      Main.Dir (lit "src")
        [ Main.File (lit "c.js") None;
          Main.File (lit "d.md") (Some (lit "# notes")) ] ].

Definition session : str := lit "s1".

(** A machine where the clone would work and the upload succeeds. *)
Definition all_well : Main.ingest_env :=
  {| Main.git := Main.GitCloned;
     Main.at_path := fun _ => Some repo;
     Main.upload := Ok (lit "files/abc") |}.

(** A request for a repository that is not on the allowed host. *)
Definition foreign_request : Main.SessionRequest :=
  {| Main.session_id := session;
     Main.data := Some (lit "http://example.com/repo.git") |}.

End Samples.

(** * Properties *)

(** ** Text lemmas *)



(** ** The matcher finds a match exactly when one exists *)

Section MatcherFacts.
Context (U : unicode).
Import Re.

Lemma last_or_app p w1 w2 : last_or p (w1 ++ w2) = last_or (last_or p w1) w2.
Proof. revert p. induction w1 as [|t w1 IH]; intros p; simpl; [done | apply IH]. Qed.

Lemma take_app_consumed (w post : str) :
  take (length (w ++ post) - length post) (w ++ post) = w.
Proof.
  rewrite length_app. replace (length w + length post - length post)%nat
    with (length w) by lia.
  by rewrite take_app_length.
Qed.

Lemma star_sound k cont p g s x :
  star U k cont p g s = Some x ->
  exists w post, s = w ++ post /\ forallb (in_cls U k) w = true /\
                 cont (MState (last_or p w) post g) = Some x.
Proof.
  revert p. induction s as [|t s IH]; intros p H; simpl in H.
  - exists [], []. done.
  - destruct (in_cls U k t) eqn:Ht.
    + destruct (star U k cont (Some t) g s) as [r|] eqn:Hs.
      * injection H as <-. destruct (IH _ Hs) as (w & post & -> & Hw & Hc).
        exists (t :: w), post. simpl. by rewrite Ht.
      * exists [], (t :: s). done.
    + exists [], (t :: s). done.
Qed.

Lemma star_stop k cont p g s :
  is_Some (cont (MState p s g)) -> is_Some (star U k cont p g s).
Proof.
  intros H. destruct s as [|t s]; simpl; [done|].
  destruct (in_cls U k t); [|done].
  destruct (star U k cont (Some t) g s); [by eexists | done].
Qed.

Lemma star_complete k cont p g w post :
  forallb (in_cls U k) w = true ->
  is_Some (cont (MState (last_or p w) post g)) ->
  is_Some (star U k cont p g (w ++ post)).
Proof.
  revert p. induction w as [|t w IH]; intros p Hw H; simpl in *.
  - by apply star_stop.
  - apply andb_true_iff in Hw as [Ht Hw]. rewrite Ht.
    destruct (IH _ Hw H) as [r ->]. by eexists.
Qed.

Lemma atleast_sound n k cont p g s x :
  atleast U n k cont p g s = Some x ->
  exists w post, s = w ++ post /\ forallb (in_cls U k) w = true /\
                 (n <= length w)%nat /\
                 cont (MState (last_or p w) post g) = Some x.
Proof.
  revert p s. induction n as [|n IH]; intros p s H; simpl in H.
  - destruct (star_sound _ _ _ _ _ _ H) as (w & post & -> & Hw & Hc).
    exists w, post. repeat split; [done | lia | done].
  - destruct s as [|t s]; [done|]. destruct (in_cls U k t) eqn:Ht; [|done].
    destruct (IH _ _ H) as (w & post & -> & Hw & Hn & Hc).
    exists (t :: w), post. simpl. rewrite Ht. repeat split; [done | lia | done].
Qed.

Lemma atleast_complete n k cont p g w post :
  forallb (in_cls U k) w = true -> (n <= length w)%nat ->
  is_Some (cont (MState (last_or p w) post g)) ->
  is_Some (atleast U n k cont p g (w ++ post)).
Proof.
  revert p w. induction n as [|n IH]; intros p w Hw Hn H; simpl.
  - by apply star_complete.
  - destruct w as [|t w]; simpl in *; [lia|].
    apply andb_true_iff in Hw as [Ht Hw]. rewrite Ht. apply IH; [done | lia | done].
Qed.

(** Soundness: a result of the matcher comes from a match, and is what the
    continuation made of the state after it. *)
Lemma m_sound r : forall cont st x,
  m U r cont st = Some x ->
  exists w post g',
    rest st = w ++ post /\ M U r (prev st) (grp st) w post g' /\
    cont (MState (last_or (prev st) w) post g') = Some x.
Proof.
  induction r as [|c|k|a IHa b IHb|a IHa b IHb|a IHa|k|n k|a IHa|];
    intros cont [p s g] x H; simpl in *.
  - exists [], s, g. repeat split; [constructor | done].
  - destruct s as [|t s]; [done|]. destruct (ci_eq U c t) eqn:Hc; [|done].
    exists [t], s, g. repeat split; [by constructor | done].
  - destruct s as [|t s]; [done|]. destruct (in_cls U k t) eqn:Hc; [|done].
    exists [t], s, g. repeat split; [by constructor | done].
  - destruct (IHa _ _ _ H) as (w1 & post1 & g1 & Hs & Ha & Hb). simpl in *.
    destruct (IHb _ _ _ Hb) as (w2 & post & g2 & Hs2 & Hb' & Hk). simpl in *.
    subst s post1. exists (w1 ++ w2), post, g2.
    rewrite last_or_app, <- app_assoc. repeat split; [|done].
    by econstructor.
  - destruct (m U a cont (MState p s g)) as [r|] eqn:Ha.
    + injection H as <-. destruct (IHa _ _ _ Ha) as (w & post & g' & ? & ? & ?).
      exists w, post, g'. repeat split; [done | by apply M_AltL | done].
    + destruct (IHb _ _ _ H) as (w & post & g' & ? & ? & ?).
      exists w, post, g'. repeat split; [done | by apply M_AltR | done].
  - destruct (m U a cont (MState p s g)) as [r|] eqn:Ha.
    + injection H as <-. destruct (IHa _ _ _ Ha) as (w & post & g' & ? & ? & ?).
      exists w, post, g'. repeat split; [done | by apply M_OptS | done].
    + exists [], s, g. repeat split; [apply M_OptN | done].
  - destruct (star_sound _ _ _ _ _ _ H) as (w & post & -> & Hw & Hc).
    exists w, post, g. repeat split; [by constructor | done].
  - destruct (atleast_sound _ _ _ _ _ _ _ H) as (w & post & -> & Hw & Hn & Hc).
    exists w, post, g. repeat split; [by constructor | done].
  - destruct (IHa _ _ _ H) as (w & post & g' & Hs & Ha & Hk). simpl in *.
    subst s. rewrite take_app_consumed in Hk.
    exists w, post, (Some w). repeat split; [by econstructor | done].
  - destruct (at_boundary U p s) eqn:Hb; [|done].
    exists [], s, g. repeat split; [by constructor | done].
Qed.

(** Completeness: where a match exists after which the continuation
    succeeds, the matcher succeeds. *)
Lemma m_complete r p g w post g' :
  M U r p g w post g' ->
  forall cont,
    is_Some (cont (MState (last_or p w) post g')) ->
    is_Some (m U r cont (MState p (w ++ post) g)).
Proof.
  induction 1 as [p g post|c t p g post Hc|k t p g post Hc
                 |a b p g w1 w2 post g1 g2 _ IHa _ IHb
                 |a b p g w post g1 _ IH|a b p g w post g1 _ IH
                 |a p g w post g1 _ IH|a p g post
                 |k p g w post Hw|n k p g w post Hw Hn
                 |a p g w post g1 _ IH|p g post Hb];
    intros cont Hk; simpl in *.
  - done.
  - by rewrite Hc.
  - by rewrite Hc.
  - rewrite <- app_assoc. apply IHa, IHb. by rewrite <- last_or_app.
  - destruct (IH _ Hk) as [r ->]. by eexists.
  - destruct (m U a cont _); [by eexists | by apply IH].
  - destruct (IH _ Hk) as [r ->]. by eexists.
  - destruct (m U a cont _); [by eexists | done].
  - by apply star_complete.
  - by apply atleast_complete.
  - apply IH. simpl. by rewrite take_app_consumed.
  - by rewrite Hb.
Qed.

Lemma search_from_sound r s : forall p x,
  search_from U r p s = Some x ->
  exists pre w post g,
    s = pre ++ w ++ post /\ M U r (last_or p pre) None w post g /\
    x = MState (last_or (last_or p pre) w) post g /\
    forall pre' w' post' g',
      s = pre' ++ w' ++ post' -> M U r (last_or p pre') None w' post' g' ->
      (length pre <= length pre')%nat.
Proof.
  induction s as [|t s IH]; intros p x H; simpl in H.
  - destruct (m U r Some (MState p [] None)) as [y|] eqn:Hm; [|done].
    injection H as <-. destruct (m_sound _ _ _ _ Hm) as (w & post & g & Hs & HM & Hk).
    simpl in *. exists [], w, post, g. injection Hk as <-.
    repeat split; [done.. | simpl; lia].
  - destruct (m U r Some (MState p (t :: s) None)) as [y|] eqn:Hm.
    + injection H as <-. destruct (m_sound _ _ _ _ Hm) as (w & post & g & Hs & HM & Hk).
      simpl in *. exists [], w, post, g. injection Hk as <-.
      repeat split; [done.. | simpl; lia].
    + destruct (IH _ _ H) as (pre & w & post & g & -> & HM & -> & Hleft).
      exists (t :: pre), w, post, g. repeat split; [done..|].
      intros pre' w' post' g' Hs' HM'. destruct pre' as [|t' pre'].
      * simpl in *. pose proof (m_complete _ _ _ _ _ _ HM' Some) as [y Hy];
          [by eexists|]. rewrite <- Hs' in Hy. congruence.
      * injection Hs' as <- Hs'. simpl. apply le_n_S. by eapply Hleft.
Qed.

Lemma search_from_complete r pre : forall p w post g,
  M U r (last_or p pre) None w post g ->
  is_Some (search_from U r p (pre ++ w ++ post)).
Proof.
  induction pre as [|t pre IH]; intros p w post g HM.
  - simpl in HM. pose proof (m_complete _ _ _ _ _ _ HM Some) as Hc.
    destruct Hc as [y Hy]; [by eexists|].
    simpl. destruct (w ++ post); simpl; by rewrite Hy.
  - simpl. destruct (m U r Some _); [by eexists|]. by eapply IH.
Qed.

Lemma search_matches r s : is_Some (search U r s) <-> matches U r s.
Proof.
  split.
  - intros [x H].
    destruct (search_from_sound _ _ _ _ H) as (pre & w & post & g & ? & ? & ? & ?).
    by exists pre, w, post, g.
  - intros (pre & w & post & g & -> & HM). by eapply search_from_complete.
Qed.

(** [re.search] returns the leftmost match, or nothing when there is none. *)
Lemma search_leftmost r s x :
  search U r s = Some x ->
  exists pre w post,
    leftmost_match U r s pre w post (grp x) /\ rest x = post.
Proof.
  intros H. destruct (search_from_sound _ _ _ _ H)
    as (pre & w & post & g & Hs & HM & -> & Hleft).
  exists pre, w, post. simpl. repeat split; [done.. |].
  intros pre' w' post' g' [Hs' HM']. by eapply Hleft.
Qed.


End MatcherFacts.

(** ** The amount pattern *)

Ltac seqs_step := cbn [seqs fold_right] in *.

Section AmountPattern.
Context (U : unicode).
Import Re Zenorc.

Lemma forallb_Forall {A} (f : A -> bool) (l : list A) :
  forallb f l = true <-> Forall (fun x => f x = true) l.
Proof.
  induction l as [|x l IH]; simpl.
  - split; [constructor | done].
  - rewrite andb_true_iff, IH. split.
    + intros [? ?]. by constructor.
    + intros H. by inversion H.
Qed.

Lemma last_or_snoc p w c : last_or p (w ++ [c]) = Some c.
Proof. by rewrite last_or_app. Qed.




Lemma M_seq_inv a b p g w post g2 :
  M U (Seq a b) p g w post g2 ->
  exists w1 w2 g1,
    w = w1 ++ w2 /\ M U a p g w1 (w2 ++ post) g1 /\
    M U b (last_or p w1) g1 w2 post g2.
Proof. intros H. inversion H; subst. by eexists _, _, _. Qed.

Lemma M_eps_inv p g w post g' : M U Eps p g w post g' -> w = [] /\ g' = g.
Proof. intros H. by inversion H. Qed.
















End AmountPattern.

(** ** Classification of a notification body *)



Example classify_notice :
  Zenorc.classify Samples.ascii_only Samples.notice = true.
Proof. by vm_compute. Qed.

(** "The number ends" is a word boundary after the 5 or after the decimal
    suffix: an amount of five thousand, written with a separator, has the
    pattern too. *)
Example classify_five_thousand :
  Zenorc.classify Samples.ascii_only (lit "INR 5,000.00 credited to your a/c") = true.
Proof. by vm_compute. Qed.

Example classify_fifty :
  Zenorc.classify Samples.ascii_only (lit "INR 50.00 credited to your a/c") = false.
Proof. by vm_compute. Qed.

Example classify_debited :
  Zenorc.classify Samples.ascii_only (lit "Rs 5 credited; Rs 5 debited") = false.
Proof. by vm_compute. Qed.

(** ** Extraction of the transaction identifier *)

Section Extraction.
Context (U : unicode).
Import Re Zenorc.

Lemma M_group_inv a p g w post g' :
  M U (Group a) p g w post g' -> g' = Some w /\ exists g1, M U a p g w post g1.
Proof. intros H. inversion H; subst. split; [done | by eexists]. Qed.

Lemma M_atleast_inv n k p g w post g' :
  M U (AtLeast n k) p g w post g' ->
  (n <= length w)%nat /\ Forall (fun t => in_cls U k t = true) w /\ g' = g.
Proof. intros H. inversion H; subst. by rewrite <- forallb_Forall. Qed.

(** A pattern that ends in the group [(k{n,})] captures at least [n]
    characters of the class [k]. *)
Lemma M_seqs_group n k rs : forall p g w post g',
  M U (seqs (rs ++ [Group (AtLeast n k)])) p g w post g' ->
  exists d, g' = Some d /\ (n <= length d)%nat /\
            Forall (fun t => in_cls U k t = true) d.
Proof.
  induction rs as [|r rs IH]; intros p g w post g' H; cbn [app] in H; seqs_step.
  - apply M_seq_inv in H as (w1 & w2 & g1 & -> & Hg & He).
    apply M_eps_inv in He as [-> ->].
    apply M_group_inv in Hg as [-> [g2 Hd]].
    apply M_atleast_inv in Hd as (Hn & Hd & _). by exists w1.
  - apply M_seq_inv in H as (w1 & w2 & g1 & -> & _ & H). by eapply IH.
Qed.

Lemma pattern_group r body g :
  r ∈ patterns -> captured U r body g -> reference_digits U g.
Proof.
  intros Hr (pre & w & post & [[_ HM] _]). unfold patterns in Hr.
  apply elem_of_cons in Hr as [-> | Hr]; [|apply list_elem_of_singleton in Hr as ->].
  - apply (M_seqs_group 8 CDigit
             [ word (lit "Reference"); Star CSpace;
               Opt (Alt (seqs [word (lit "No"); Opt (Lit (ord "."))])
                        (word (lit "number")));
               Star CSpace; Opt (Cls (COneOf (lit ":-"))); Star CSpace ]) in HM
      as (d & [= <-] & Hn & Hd). done.
  - apply (M_seqs_group 8 CDigit
             [ word (lit "transaction reference number"); Star CSpace;
               Opt (word (lit "is"));
               Star CSpace; Opt (Cls (COneOf (lit ":-"))); Star CSpace ]) in HM
      as (d & [= <-] & Hn & Hd). done.
Qed.

Lemma pattern_group_some r body x :
  r ∈ patterns -> search U r body = Some x ->
  exists g, group1 x = Some g /\ captured U r body g.
Proof.
  intros Hr Hs. destruct (search_leftmost _ _ _ _ Hs) as (pre & w & post & Hl & _).
  unfold group1. destruct (grp x) as [g|] eqn:Hg.
  - exists g. split; [done|]. by exists pre, w, post.
  - exfalso. destruct Hl as [[_ HM] _]. unfold patterns in Hr.
    apply elem_of_cons in Hr as [-> | Hr]; [|apply list_elem_of_singleton in Hr as ->].
    + apply (M_seqs_group 8 CDigit
               [ word (lit "Reference"); Star CSpace;
                 Opt (Alt (seqs [word (lit "No"); Opt (Lit (ord "."))])
                          (word (lit "number")));
                 Star CSpace; Opt (Cls (COneOf (lit ":-"))); Star CSpace ]) in HM
        as (d & [=] & _).
    + apply (M_seqs_group 8 CDigit
               [ word (lit "transaction reference number"); Star CSpace;
                 Opt (word (lit "is"));
                 Star CSpace; Opt (Cls (COneOf (lit ":-"))); Star CSpace ]) in HM
        as (d & [=] & _).
Qed.

End Extraction.



(** ** The two loops, interleaved *)

Section Loops.
Context (cfg : Zenorc.config).
Import Zenorc.

Lemma log_payment_frame L t amount w :
  queue (log_payment cfg L t amount w) = queue w /\
  status (log_payment cfg L t amount w) = status w /\
  last_processed (log_payment cfg L t amount w) = last_processed w /\
  clock (log_payment cfg L t amount w) = clock w.
Proof.
  unfold log_payment, log_payment_try.
  destruct (_sheet cfg L); [|done].
  destruct (tz_mumbai (zones L)); [|done].
  destruct (append_row L); done.
Qed.

Lemma Qltb_false a b : Qltb a b = false -> (b <= a)%Q.
Proof.
  unfold Qltb. intros H. apply negb_false_iff in H. by apply Qle_bool_iff.
Qed.

Lemma Qltb_true a b : Qltb a b = true -> (a < b)%Q.
Proof.
  unfold Qltb. intros H. apply negb_true_iff in H.
  apply Qnot_le_lt. intros Hle. apply Qle_bool_iff in Hle. congruence.
Qed.

Lemma inv_started B t0 : Inv cfg (started B t0).
Proof.
  split; simpl; try done.
  - constructor.
  - intros t H. by apply elem_of_nil in H.
Qed.

Lemma inv_tick s d : Inv cfg s -> Inv cfg (step cfg s (Tick d)).
Proof.
  intros [H1 H2 H3 H4 H5 H6 H7 H8 H9 H10]. simpl.
  destruct (Qle_bool 0 d) eqn:Hd; [|by split].
  apply Qle_bool_iff in Hd.
  split; simpl; try done.
  - intros now Hc. destruct (H8 _ Hc) as [? ?]. split; [done | lra].
  - intros Hc. destruct (H9 Hc) as [? ?]. split; [done | lra].
Qed.

Lemma inv_producer s i : Inv cfg s -> Inv cfg (step cfg s (Producer i)).
Proof.
  destruct s as [w p c]. intros [H1 H2 H3 H4 H5 H6 H7 H8 H9 H10]. simpl in *.
  destruct p as [| |r|t|t|t|t|]; simpl.
  - split; simpl; done.
  - split; simpl; done.
  - destruct r as [[|ch t']|]; [by split | | by split].
    case_bool_decide as Hs; [by split|].
    split; simpl; try done.
    intros t [= <-]. by apply eq_None_not_Some.
  - (* status[txn_id] = "Queued" *)
    pose proof (H3 t eq_refl) as Hfresh.
    assert (t ∉ queue w) as Hq.
    { intros Hin. apply H2 in Hin. congruence. }
    split; simpl; try done.
    + intros t1 Hin. rewrite lookup_insert_ne; [by apply H2|].
      intros ->. done.
    + intros t1 [= <-]. by rewrite lookup_insert_eq.
    + intros t1 v Hf. destruct (H5 _ _ Hf) as [Hst Hnq].
      rewrite lookup_insert_ne; [done|]. intros ->. congruence.
    + intros t1 t2 v [= <-] Hf ->. destruct (H5 _ _ Hf) as [Hst _]. congruence.
  - (* log_payment(txn_id) *)
    destruct (log_payment_frame (sheet_env i) t (lit "5") w) as (Eq & Es & El & Ec).
    split; cbn [sw pp cp holds_fresh holds_queued in_flight]; rewrite ?Eq, ?Es, ?El, ?Ec; done.
  - (* queue.append(txn_id) *)
    destruct (H4 t eq_refl) as [Hst Hnq].
    split; simpl; try done.
    + apply NoDup_app. split; [done|]. split; [|apply NoDup_singleton].
      intros x Hx ->%list_elem_of_singleton. done.
    + intros t1 [Hin | ->%list_elem_of_singleton]%elem_of_app; [by apply H2 | done].
    + intros t1 v Hf. destruct (H5 _ _ Hf) as [Hst1 Hnq1]. split; [done|].
      intros [Hin | ->%list_elem_of_singleton]%elem_of_app; [done|].
      exact (H6 _ _ _ eq_refl Hf eq_refl).
    + intros Hc. intros Happ. by destruct (queue w).
    + intros now Hc. destruct (H8 _ Hc). split; [|done]. by destruct (queue w).
    + intros Hc. destruct (H9 Hc). split; [|done]. by destruct (queue w).
  - split; simpl; done.
  - split; simpl; done.
Qed.

Lemma inv_consumer s i : Inv cfg s -> Inv cfg (step cfg s (Consumer i)).
Proof.
  destruct s as [w p c]. intros [H1 H2 H3 H4 H5 H6 H7 H8 H9 H10]. simpl in *.
  destruct c as [| |now| |t|t|t ok| | |e]; simpl.
  - destruct (queue w) as [|t q] eqn:Eq; split; simpl; rewrite ?Eq; try done.
  - split; simpl; try done.
    intros now [= <-]. split; [by apply H7 | lra].
  - destruct (H8 now eq_refl) as [Hne Hnow].
    destruct (Qltb _ _) eqn:Hlt; split; simpl; try done.
    intros _. split; [done|]. apply Qltb_false in Hlt. lra.
  - (* txn_id = queue.popleft() *)
    destruct (H9 eq_refl) as [Hne _].
    destruct (queue w) as [|t q] eqn:Eq; [done|]. clear Hne.
    apply NoDup_cons in H1 as [Hnt Hnd].
    split; simpl; try done.
    + intros t1 Hin. apply H2. by right.
    + intros t1 Hh. destruct (H4 _ Hh) as [? Hn]. split; [done|].
      intros Hin. apply Hn. by right.
    + intros t1 v [= <- <-]. split; [|done]. apply H2. by left.
    + intros t1 t2 v Hh [= <- <-] ->. destruct (H4 _ Hh) as [_ Hn].
      apply Hn. by left.
  - (* status[txn_id] = "Processing" *)
    destruct (H5 t Queued eq_refl) as [Hst Hnq].
    split; simpl; try done.
    + intros t1 Hin. rewrite lookup_insert_ne; [by apply H2|]. by intros ->.
    + intros t1 Hh. rewrite lookup_insert_ne; [by apply H3|].
      intros ->. apply H3 in Hh. congruence.
    + intros t1 Hh. rewrite lookup_insert_ne; [by apply H4|].
      intros ->. by apply (H6 t1 t1 Queued).
    + intros t1 v [= <- <-]. by rewrite lookup_insert_eq.
    + intros t1 t2 v Hh [= <- <-]. by apply (H6 t1 t Queued).
  - (* ok = send_mqtt() *)
    destruct (send_mqtt cfg (broker i) 3 5) as [evs ok].
    split; simpl; done.
  - (* status[txn_id] = "Completed" if ok else "Failed" *)
    destruct (H5 t Processing eq_refl) as [Hst Hnq].
    split; simpl; try done.
    + intros t1 Hin. rewrite lookup_insert_ne; [by apply H2|]. by intros ->.
    + intros t1 Hh. rewrite lookup_insert_ne; [by apply H3|].
      intros ->. apply H3 in Hh. congruence.
    + intros t1 Hh. rewrite lookup_insert_ne; [by apply H4|].
      intros ->. destruct (H4 _ Hh). congruence.
  - split; simpl; done.
  - split; simpl; done.
  - by destruct (H10 e).
Qed.

Lemma inv_step s a : Inv cfg s -> Inv cfg (step cfg s a).
Proof.
  destruct a; [apply inv_tick | apply inv_producer | apply inv_consumer].
Qed.

Lemma inv_run acts : forall s, Inv cfg s -> Inv cfg (run cfg s acts).
Proof.
  unfold run. induction acts as [|a acts IH]; intros s H; simpl; [done|].
  by apply IH, inv_step.
Qed.

Lemma inv_reachable B t0 acts : Inv cfg (run cfg (started B t0) acts).
Proof. apply inv_run, inv_started. Qed.

End Loops.

Section Lifecycle.
Context (cfg : Zenorc.config).
Import Zenorc.

Lemma step_status_move s a t :
  Inv cfg s ->
  status_move (status (sw s) !! t) (status (sw (step cfg s a)) !! t).
Proof.
  destruct s as [w p c]. intros [H1 H2 H3 H4 H5 H6 H7 H8 H9 H10]. simpl in *.
  destruct a as [d|i|i]; simpl.
  - destruct (Qle_bool 0 d); constructor.
  - destruct p as [| |r|t1|t1|t1|t1|]; simpl; try constructor.
    + destruct r as [[|ch t']|]; try constructor. case_bool_decide; constructor.
    + destruct (decide (t1 = t)) as [->|Hne].
      * rewrite lookup_insert_eq, (H3 t eq_refl). constructor.
      * rewrite lookup_insert_ne by done. constructor.
    + destruct (log_payment_frame cfg (sheet_env i) t1 (lit "5") w) as (_ & -> & _).
      constructor.
  - destruct c as [| |now| |t1|t1|t1 ok| | |e]; simpl; try constructor.
    + destruct (queue w); constructor.
    + destruct (Qltb _ _); constructor.
    + destruct (queue w); constructor.
    + destruct (decide (t1 = t)) as [->|Hne].
      * destruct (H5 t Queued eq_refl) as [-> _]. rewrite lookup_insert_eq.
        constructor.
      * rewrite lookup_insert_ne by done. constructor.
    + destruct (send_mqtt cfg (broker i) 3 5). constructor.
    + destruct (decide (t1 = t)) as [->|Hne].
      * destruct (H5 t Processing eq_refl) as [-> _]. rewrite lookup_insert_eq.
        destruct ok; constructor.
      * rewrite lookup_insert_ne by done. constructor.
Qed.

Lemma may_become_move a b c :
  may_become a b = true -> status_move b c -> may_become a c = true.
Proof.
  intros Hab Hbc. destruct Hbc; [done|..];
    destruct a as [[]|]; simpl in *; congruence.
Qed.

Lemma may_become_refl a : may_become a a = true.
Proof. by destruct a as [[]|]. Qed.

Lemma run_may_become more : forall s t o,
  Inv cfg s ->
  may_become o (status (sw s) !! t) = true ->
  may_become o (status (sw (run cfg s more)) !! t) = true.
Proof.
  unfold run. induction more as [|a more IH]; intros s t o HI Ho; simpl; [done|].
  apply IH; [by apply inv_step|].
  eapply may_become_move; [exact Ho | by apply step_status_move].
Qed.


End Lifecycle.

(** C3. In every interleaving of the steps of [main_loop] and [processor]
    (and of the passing of time), started from the state [start()] leaves:
    in one step the status of an identifier either stays as it is, or enters
    the mapping as Queued, or goes from Queued to Processing, or from
    Processing to Completed or Failed; hence over any continuation of the run
    an identifier that is in the mapping stays in it, never returns to an
    earlier status and never leaves Completed or Failed. *)
Theorem status_lifecycle (cfg : Zenorc.config) (bootstrapped : gset str)
  (t0 : Q) (acts : list Zenorc.action) (t : str) :
  let s := Zenorc.run cfg (Zenorc.started bootstrapped t0) acts in
  (forall a,
     Zenorc.status_move (Zenorc.status (Zenorc.sw s) !! t)
       (Zenorc.status (Zenorc.sw (Zenorc.step cfg s a)) !! t)) /\
  (forall more,
     Zenorc.may_become (Zenorc.status (Zenorc.sw s) !! t)
       (Zenorc.status (Zenorc.sw (Zenorc.run cfg s more)) !! t) = true).
Proof.
  intros s. pose proof (inv_reachable cfg bootstrapped t0 acts) as HI.
  split.
  - intros a. by apply step_status_move.
  - intros more. apply run_may_become; [done | apply may_become_refl].
Qed.



(** ** The signal publisher *)

Section Publisher.
Context (cfg : Zenorc.config) (env : Z -> Zenorc.attempt_env)
  (max_retries retry_delay : Z).
Import Zenorc.

(** The [k]-th list of the trace is what the [k]-th turn of the loop did. *)
Lemma attempts_from_lookup n : forall attempt bound trace ok k evs,
  attempts_from cfg max_retries retry_delay n attempt bound env = (trace, ok) ->
  trace !! k = Some evs ->
  exists b,
    fst (fst (run_attempt cfg max_retries retry_delay (attempt + Z.of_nat k)
                b (env (attempt + Z.of_nat k)%Z))) = evs.
Proof.
  induction n as [|n IH]; intros attempt bound trace ok k evs H Hk; simpl in H.
  - injection H as <- <-. done.
  - destruct (run_attempt cfg max_retries retry_delay attempt bound (env attempt))
      as [[evs1 returned] bound'] eqn:E1.
    destruct returned.
    + injection H as <- <-. destruct k as [|k]; [|done].
      injection Hk as <-. exists bound. rewrite Z.add_0_r, E1. done.
    + destruct (attempts_from cfg max_retries retry_delay n (attempt + 1) bound' env)
        as [later ok'] eqn:E2.
      injection H as <- <-. destruct k as [|k].
      * injection Hk as <-. exists bound. rewrite Z.add_0_r, E1. done.
      * simpl in Hk. destruct (IH _ _ _ _ _ _ E2 Hk) as [b Hb]. exists b.
        replace (attempt + Z.of_nat (S k))%Z with (attempt + 1 + Z.of_nat k)%Z by lia.
        done.
Qed.

Lemma run_attempt_connected attempt b a :
  binds_client (outcome_of a) = true -> connected_at_exit a = true ->
  exists pre,
    fst (fst (run_attempt cfg max_retries retry_delay attempt b a)) = pre ++ teardown.
Proof.
  intros Hb Hc. unfold run_attempt, attempt_finally.
  destruct (attempt_body cfg (outcome_of a)) as [evs r].
  rewrite Hb, Hc, orb_true_r. cbn [andb].
  destruct r as [u|e]; cbn [fst]; [by exists evs|].
  exists (evs ++ attempt_handler max_retries retry_delay attempt e).
  by rewrite <- app_assoc.
Qed.

Lemma elem_of_handler ev attempt e :
  ev ∈ attempt_handler max_retries retry_delay attempt e ->
  (exists l m, ev = EvLog l m) \/ (exists d, ev = EvSleep d).
Proof.
  unfold attempt_handler. intros [->|H]%elem_of_cons; [left; by eexists _, _|].
  destruct (_ <? _)%Z; [|by apply elem_of_nil in H].
  apply list_elem_of_singleton in H as ->. right. by eexists.
Qed.

Lemma run_attempt_never_connected attempt b a :
  never_connects (outcome_of a) = true -> connected_at_exit a = false ->
  let evs := fst (fst (run_attempt cfg max_retries retry_delay attempt b a)) in
  (EvLoopStart ∉ evs) /\ (EvLoopStop ∉ evs) /\ (EvDisconnect ∉ evs).
Proof.
  intros Hn Hc. unfold run_attempt, attempt_finally.
  rewrite Hc, andb_false_r.
  assert (forall ev, ev = EvLoopStart \/ ev = EvLoopStop \/ ev = EvDisconnect ->
                     ev ∉ fst (attempt_body cfg (outcome_of a))) as Hbody.
  { intros ev Hev Hin. unfold attempt_body in Hin.
    destruct (outcome_of a); try done; simpl in Hin;
      destruct (falsy (MQTT_USERNAME cfg)); simpl in Hin;
      repeat (apply elem_of_cons in Hin as [-> | Hin];
              [by destruct Hev as [|[|]] |]);
      by apply elem_of_nil in Hin. }
  assert (forall ev e, ev = EvLoopStart \/ ev = EvLoopStop \/ ev = EvDisconnect ->
                       ev ∉ attempt_handler max_retries retry_delay attempt e) as Hh.
  { intros ev e Hev Hin. apply elem_of_handler in Hin as [(l & m & ->) | (d & ->)];
      by destruct Hev as [|[|]]. }
  destruct (attempt_body cfg (outcome_of a)) as [evs r] eqn:E. simpl in *.
  destruct r; simpl; rewrite ?app_nil_r.
  - repeat split; apply Hbody; auto.
  - repeat split; intros [Hin | Hin]%elem_of_app;
      solve [ eapply Hbody; [|exact Hin]; auto | eapply Hh; [|exact Hin]; auto ].
Qed.

End Publisher.

(** C5, counterexample. With a broker that refuses the first two connections
    and accepts the third, [send_mqtt] returns success after three attempts,
    and the first two attempts end without stopping a loop or disconnecting:
    the [finally] clause acts only when the client reports itself connected. *)
Lemma teardown_skipped_when_not_connected :
  snd (Zenorc.send_mqtt Samples.cfg Samples.third_time_lucky 3 5) = true /\
  length (fst (Zenorc.send_mqtt Samples.cfg Samples.third_time_lucky 3 5)) = 3%nat /\
  ~ Forall Zenorc.tears_down
      (fst (Zenorc.send_mqtt Samples.cfg Samples.third_time_lucky 3 5)).
Proof.
  split; [by vm_compute|]. split; [by vm_compute|].
  intros H.
  apply Forall_lookup_1 with (i := 0%nat)
    (x := [Zenorc.EvClient; Zenorc.EvCredentials; Zenorc.EvTls;
           Zenorc.EvLog "WARN"
             (lit "MQTT attempt 1 failed: [Errno 111] Connection refused");
           Zenorc.EvSleep 5]) in H; [|by vm_compute].
  destruct H as [H _].
  repeat (apply elem_of_cons in H as [H | H]; [discriminate|]).
  by apply elem_of_nil in H.
Qed.

(** C5, as the code has it. In every call of [send_mqtt], for every attempt
    made: if the attempt created a client and the client reports itself
    connected when the attempt exits, the last things the attempt does (after
    the handler's warning and back-off sleep, before the next attempt starts or
    the function returns) are stopping the network loop and disconnecting; if
    the attempt failed before [connect] returned and the client is not
    connected, the attempt starts no loop and tears nothing down. In
    particular, when the first two connections are refused and the third
    succeeds and stays connected, the function returns success after three
    attempts and the third one ends with the teardown. *)
Theorem teardown_when_connected (cfg : Zenorc.config)
  (env : Z -> Zenorc.attempt_env) (max_retries retry_delay : Z) :
  (forall (k : nat) evs,
     fst (Zenorc.send_mqtt cfg env max_retries retry_delay) !! k = Some evs ->
     let a := env (1 + Z.of_nat k)%Z in
     (Zenorc.binds_client (Zenorc.outcome_of a) = true ->
      Zenorc.connected_at_exit a = true ->
      exists pre, evs = pre ++ Zenorc.teardown) /\
     (Zenorc.never_connects (Zenorc.outcome_of a) = true ->
      Zenorc.connected_at_exit a = false ->
      (Zenorc.EvLoopStart ∉ evs) /\ (Zenorc.EvLoopStop ∉ evs) /\
      (Zenorc.EvDisconnect ∉ evs))) /\
  (forall e1 e2 mid,
     (3 <= max_retries)%Z ->
     env 1%Z = {| Zenorc.outcome_of := Zenorc.ConnectRaises e1;
                  Zenorc.connected_at_exit := false |} ->
     env 2%Z = {| Zenorc.outcome_of := Zenorc.ConnectRaises e2;
                  Zenorc.connected_at_exit := false |} ->
     env 3%Z = {| Zenorc.outcome_of := Zenorc.Published mid;
                  Zenorc.connected_at_exit := true |} ->
     exists evs1 evs2 pre3,
       Zenorc.send_mqtt cfg env max_retries retry_delay =
         ([evs1; evs2; pre3 ++ Zenorc.teardown], true) /\
       ~ Zenorc.tears_down evs1 /\ ~ Zenorc.tears_down evs2).
Proof.
  split.
  - intros k evs Hk a. unfold Zenorc.send_mqtt in Hk.
    destruct (Zenorc.attempts_from cfg max_retries retry_delay
                (Z.to_nat max_retries) 1 false env) as [trace ok] eqn:E.
    simpl in Hk.
    destruct (attempts_from_lookup _ _ _ _ _ _ _ _ _ _ _ E Hk) as [b <-].
    split.
    + intros Hb Hc. by apply run_attempt_connected.
    + intros Hn Hc. by apply run_attempt_never_connected.
  - intros e1 e2 mid Hmax H1 H2 H3. unfold Zenorc.send_mqtt.
    destruct (Z.to_nat max_retries) as [|[|[|n]]] eqn:En; [lia..|].
    cbn [Zenorc.attempts_from]. unfold Zenorc.run_attempt.
    rewrite H1. cbn [Zenorc.outcome_of Zenorc.connected_at_exit Zenorc.attempt_body
                       Zenorc.binds_client orb andb Zenorc.attempt_finally].
    change (1 + 1)%Z with 2%Z. rewrite H2.
    cbn [Zenorc.outcome_of Zenorc.connected_at_exit Zenorc.attempt_body
           Zenorc.binds_client orb andb Zenorc.attempt_finally].
    change (2 + 1)%Z with 3%Z. rewrite H3.
    cbn [Zenorc.outcome_of Zenorc.connected_at_exit Zenorc.attempt_body
           Zenorc.binds_client orb andb Zenorc.attempt_finally].
    eexists _, _, _. split; [reflexivity|].
    assert (forall attempt e,
              ~ Zenorc.tears_down
                  (((Zenorc.EvClient ::
                       (if Zenorc.falsy (Zenorc.MQTT_USERNAME cfg) then []
                        else [Zenorc.EvCredentials])) ++ [Zenorc.EvTls]) ++
                   Zenorc.attempt_handler max_retries retry_delay attempt e ++ []))
      as Hno.
    { intros attempt e [Hs _]. rewrite app_nil_r in Hs.
      apply elem_of_app in Hs as [Hs | Hs].
      - destruct (Zenorc.falsy (Zenorc.MQTT_USERNAME cfg)); simpl in Hs;
          repeat (apply elem_of_cons in Hs as [Hs | Hs]; [discriminate|]);
          by apply elem_of_nil in Hs.
      - apply elem_of_handler in Hs as [(l & m & Hs) | (d & Hs)]; discriminate. }
    split; apply Hno.
Qed.

Lemma teardown_when_connected_witness :
  exists evs1 evs2 pre3,
    Zenorc.send_mqtt Samples.cfg Samples.third_time_lucky 3 5 =
      ([evs1; evs2; pre3 ++ Zenorc.teardown], true).
Proof.
  destruct (proj2 (teardown_when_connected Samples.cfg Samples.third_time_lucky 3 5)
              Samples.refused Samples.refused 1%Z)
    as (evs1 & evs2 & pre3 & H & _); [lia | reflexivity | reflexivity | reflexivity |].
  by exists evs1, evs2, pre3.
Defined.

(** The slip left out of the statement above: when the broker never
    acknowledges the connection, the attempt has started the network loop and
    exits without stopping it. *)
Example ack_timeout_leaves_loop_running :
  exists evs,
    fst (Zenorc.send_mqtt Samples.cfg Samples.silent_broker 1 5) = [evs] /\
    Zenorc.EvLoopStart ∈ evs /\ (Zenorc.EvLoopStop ∉ evs).
Proof.
  eexists. split; [by vm_compute|]. split.
  - do 4 apply list_elem_of_further. apply list_elem_of_here.
  - intros H. repeat (apply elem_of_cons in H as [H | H]; [discriminate|]).
    by apply elem_of_nil in H.
Qed.

(** ** The ledger recorder and the timezone helper *)

Lemma tz_mumbai_available zones :
  zones "Asia/Mumbai"%string = true ->
  Zenorc.tz_mumbai zones = Ok "Asia/Mumbai"%string.
Proof. intros H. unfold Zenorc.tz_mumbai, Zenorc.ZoneInfo. by rewrite H. Qed.

(** The name in the [except] clause is bound nowhere. *)
Lemma handler_name_unbound :
  Zenorc.lookup_name "ZoneInfoNotFoundError" = None.
Proof. by vm_compute. Qed.

Lemma tz_mumbai_unavailable zones :
  zones "Asia/Mumbai"%string = false ->
  Zenorc.tz_mumbai zones =
    Raise (Exn NameError (lit "name 'ZoneInfoNotFoundError' is not defined")).
Proof.
  intros H. unfold Zenorc.tz_mumbai, Zenorc.ZoneInfo. rewrite H.
  unfold Zenorc.except_matches. by rewrite handler_name_unbound.
Qed.

(** C7, at the failing input. With a time zone database that has no key
    "Asia/Mumbai" (and has "UTC"), [tz_mumbai] does not fall back to UTC: it
    raises NameError, because the name in its [except] clause is not bound in
    the module. *)
Theorem tz_mumbai_raises_instead_of_utc :
  Zenorc.tz_mumbai Samples.iana_zones =
    Raise (Exn NameError (lit "name 'ZoneInfoNotFoundError' is not defined")) /\
  Zenorc.ZoneInfo Samples.iana_zones "UTC" = Ok "UTC"%string.
Proof. split; [by apply tz_mumbai_unavailable | done]. Qed.

Section Recorder.
Context (cfg : Zenorc.config).
Import Zenorc.



(** An undisturbed turn of [main_loop] is its statements run one after the
    other. *)
Lemma main_loop_body_steps i w c :
  exists n, run cfg (Sys w P_poll c) (replicate n (Producer i)) =
            Sys (main_loop_body cfg i w) P_sleep c.
Proof.
  unfold main_loop_body. destruct (polled i) as [[|ch t']|] eqn:E.
  - exists 2%nat. simpl. by rewrite E.
  - case_bool_decide as Hs.
    + exists 2%nat. simpl. rewrite E. simpl. by rewrite bool_decide_true.
    + exists 6%nat. simpl. rewrite E. simpl. by rewrite bool_decide_false.
  - exists 2%nat. simpl. by rewrite E.
Qed.

End Recorder.



(** ** Paths under the output directory *)

Section Paths.
Import Main.

Lemma rfind_spec c s :
  (rfind c s = (-1)%Z /\ (c ∉ s)) \/
  (exists pre post, s = pre ++ c :: post /\ (c ∉ post) /\
                    rfind c s = Z.of_nat (length pre)).
Proof.
  induction s as [|x s IH]; simpl.
  - left. split; [done | apply not_elem_of_nil].
  - destruct IH as [[Hr Hn] | (pre & post & -> & Hn & Hr)].
    + rewrite Hr. simpl. destruct (x =? c) eqn:E.
      * apply N.eqb_eq in E as ->. right. exists [], s. done.
      * apply N.eqb_neq in E. left. split; [done|].
        intros [?|?]%elem_of_cons; [congruence | done].
    + right. exists (x :: pre), post. rewrite Hr. split; [done|]. split; [done|].
      destruct (0 <=? Z.of_nat (length pre))%Z eqn:E; [simpl; lia|].
      apply Z.leb_gt in E. lia.
Qed.

(** The base name is what follows the last slash; it has none. *)
Lemma basename_no_slash p : SLASH ∉ basename p.
Proof.
  unfold basename. destruct (rfind_spec SLASH p) as [[-> Hn] | (pre & post & -> & Hn & ->)].
  - done.
  - replace (Z.to_nat (Z.of_nat (length pre) + 1)) with (length pre + 1)%nat by lia.
    rewrite drop_app_add'; [|done]. done.
Qed.

Lemma join_output_dir b :
  SLASH ∉ b -> join OUTPUT_DIR b = OUTPUT_DIR ++ SLASH :: b.
Proof.
  intros Hb. unfold join. destruct b as [|c b]; [done|].
  destruct (c =? SLASH) eqn:E; [|done].
  apply N.eqb_eq in E as ->. exfalso. apply Hb. by left.
Qed.





End Paths.




(** ** The size of the context blob *)

Section Context.
Import Main.

(** Induction on directory trees. *)
Lemma node_rect' (P : node -> Prop) :
  (forall name data, P (File name data)) ->
  (forall name children, Forall P children -> P (Dir name children)) ->
  forall n, P n.
Proof.
  intros HF HD. fix IH 1. intros [name data | name children].
  - apply HF.
  - apply HD. induction children as [|c children IHc]; constructor.
    + apply IH.
    + apply IHc.
Qed.

Lemma scan_files_within files : forall a,
  within_limit a -> within_limit (scan_files files a).
Proof.
  induction files as [|f files IH]; intros a Ha; cbn [scan_files]; [done|].
  destruct f as [file data | d sub]; [|by apply IH].
  destruct (in_set (splitext_ext file) ALLOWED_EXTENSIONS); [|by apply IH].
  destruct data as [file_content|]; [|by apply IH].
  cbv zeta. generalize (text_chunk file file_content). intros chunk.
  destruct (MAX_SIZE <? _)%Z eqn:E; [done|].
  apply Z.ltb_ge in E. apply IH. destruct Ha as [Hlen Hle].
  split; cbn [content current_size]; [|done].
  rewrite length_app, Nat2Z.inj_add. lia.
Qed.

Lemma walk_within n : forall a, within_limit a -> within_limit (walk n a).
Proof.
  induction n as [name data | name children IH] using node_rect';
    intros a Ha; simpl; [done|].
  pose proof (scan_files_within children a Ha) as Hs.
  generalize dependent (scan_files children a). clear a Ha.
  induction children as [|c children IHc]; intros a Ha; [done|].
  apply Forall_cons in IH as [Hc Hcs].
  destruct c as [file data | d sub]; [by apply IHc|].
  apply IHc; [done|]. destruct (in_set d IGNORE_DIRS); [done | by apply Hc].
Qed.

End Context.

(** C9. For every tree at the root path and every session, the content
    [create_context] writes to the context file is at most MAX_SIZE
    = 2*1024*1024 characters long. *)
Theorem context_within_limit (root : option Main.node) (session_id name blob : str) :
  snd (Main.create_context root session_id) = Some (name, blob) ->
  (Z.of_nat (length blob) <= 2 * 1024 * 1024)%Z /\
  name = Main.CONTEXT_FILE ++ lit "_" ++ session_id ++ lit ".txt".
Proof.
  unfold Main.create_context. destruct root as [n|]; [|done]. simpl.
  intros [= <- <-]. split; [|done].
  destruct (walk_within n (Main.Acc [] 0 0)) as [Hlen Hle]; [by split|].
  rewrite <- Hlen. exact Hle.
Qed.

Lemma context_within_limit_witness :
  (Z.of_nat (length (Main.content (Main.walk Samples.repo (Main.Acc [] 0 0))))
     <= 2 * 1024 * 1024)%Z.
Proof.
  refine (proj1 (context_within_limit (Some Samples.repo) Samples.session
                   (Main.CONTEXT_FILE ++ lit "_" ++ Samples.session ++ lit ".txt")
                   (Main.content (Main.walk Samples.repo (Main.Acc [] 0 0))) _)).
  reflexivity.
Defined.

(** ** Cloning and the ingest endpoint *)

Section Ingest.
Import Main.

(** A URL off the allowed host is refused before the client is run. *)
Lemma clone_refuses git url session_id :
  startswith (lit "https://github.com/") url = false ->
  exists evs,
    clone_github_repo git url session_id =
      (evs, Raise (Exn ValueError
                     (lit "Security Error: Only 'https://github.com/' URLs are allowed."))) /\
    existsb is_git_clone evs = false.
Proof.
  intros H. unfold clone_github_repo. rewrite H. simpl. by eexists.
Qed.

Lemma clone_runs_git git url session_id :
  startswith (lit "https://github.com/") url = true ->
  existsb is_git_clone (fst (clone_github_repo git url session_id)) = true.
Proof. intros H. unfold clone_github_repo. rewrite H. simpl. done. Qed.

(** What the endpoint does with such a URL: the 400 raised by the inner
    handler is itself taken by the outer handler and becomes a 500. *)
Lemma ingest_refused E req target :
  data req = Some target ->
  startswith (lit "http") target = true ->
  startswith (lit "https://github.com/") target = false ->
  exists evs,
    ingest_try E req =
      (evs, Raise (http_exception 400
                     (lit "Security Error: Only 'https://github.com/' URLs are allowed."))) /\
    ingest_endpoint E req =
      (evs, Raise (http_exception 500
                     (lit "400: Security Error: Only 'https://github.com/' URLs are allowed."))) /\
    existsb is_git_clone evs = false.
Proof.
  intros Hd Hh Hg. unfold ingest_endpoint, ingest_try. rewrite Hd, Hh.
  destruct (clone_refuses (git E) target (session_id req) Hg) as (evs & -> & Hno).
  exists evs. by repeat split.
Qed.

End Ingest.

(** C10, at the failing input. For the request data
    "http://example.com/repo.git", [clone_github_repo] raises ValueError
    without running the version-control client, the inner handler of the
    endpoint raises HTTPException(400), and the response the endpoint sends
    has status 500, not 400. *)
Theorem ingest_foreign_url_answers_500 :
  (exists evs e,
     Main.clone_github_repo Main.GitCloned (lit "http://example.com/repo.git")
       Samples.session = (evs, Raise e) /\
     exn_cls e = ValueError /\ existsb Main.is_git_clone evs = false) /\
  Main.response_status (snd (Main.ingest_try Samples.all_well Samples.foreign_request))
    = 400%Z /\
  Main.response_status (snd (Main.ingest_endpoint Samples.all_well Samples.foreign_request))
    = 500%Z.
Proof.
  split; [|split].
  - destruct (clone_refuses Main.GitCloned (lit "http://example.com/repo.git")
                Samples.session) as (evs & H & Hno); [reflexivity|].
    by eexists evs, _.
  - destruct (ingest_refused Samples.all_well Samples.foreign_request
                (lit "http://example.com/repo.git"))
      as (evs & -> & _); reflexivity.
  - destruct (ingest_refused Samples.all_well Samples.foreign_request
                (lit "http://example.com/repo.git"))
      as (evs & _ & -> & _); reflexivity.
Qed.

(** * Further properties *)

(** ** The two loops: what is never lost, repeated or reordered *)

Section Dispatch.
Context (cfg : Zenorc.config).
Import Zenorc.




(** One step: what was in the queue and what the step appends is what the
    step pops and what is in the queue afterwards. *)
Lemma queue_step s a :
  queue (sw s) ++ appended_by s a = popped_by s a ++ queue (sw (step cfg s a)).
Proof.
  destruct s as [w p c]. unfold appended_by, popped_by. simpl.
  destruct a as [d|i|i]; simpl.
  - rewrite app_nil_r. by destruct (Qle_bool 0 d).
  - destruct p as [| |r|t1|t1|t1|t1|]; simpl; rewrite ?app_nil_r; try done.
    + destruct r as [[|ch t']|]; try done. by case_bool_decide.
    + by destruct (log_payment_frame cfg (sheet_env i) t1 (lit "5") w) as (-> & _).
  - rewrite app_nil_r.
    destruct c as [| |now| |t1|t1|t1 ok| | |e]; simpl; try done.
    + by case_eq (queue w).
    + by destruct (Qltb _ _).
    + by case_eq (queue w).
    + by destruct (send_mqtt cfg (broker i) 3 5).
Qed.

Lemma queue_history acts : forall s,
  queue (sw s) ++ appended cfg s acts =
  popped cfg s acts ++ queue (sw (run cfg s acts)).
Proof.
  unfold run. induction acts as [|a acts IH]; intros s; simpl.
  - by rewrite app_nil_r.
  - rewrite <- app_assoc, <- IH, !app_assoc. f_equal. apply queue_step.
Qed.

Lemma appendable_back s a t :
  Inv cfg s -> appendable (step cfg s a) t -> appended_by s a = [] ->
  appendable s t.
Proof.
  intros HI [Hn | Hh] Hb.
  - left. pose proof (step_status_move cfg s a t HI) as Hm.
    rewrite Hn in Hm. by inversion Hm.
  - destruct s as [w p c]. unfold appendable, appended_by in *. simpl in *.
    destruct a as [d|i|i]; simpl in *.
    + destruct (Qle_bool 0 d); by right.
    + destruct p as [| |r|t1|t1|t1|t1|]; simpl in *; try done.
      * destruct r as [[|ch t']|]; try done. by case_bool_decide.
      * injection Hh as <-. left. by apply (inv_fresh _ _ HI).
      * by right.
    + right. by destruct (processor_step cfg i c w).
Qed.

Lemma appended_appendable acts : forall s t,
  Inv cfg s -> t ∈ appended cfg s acts -> appendable s t.
Proof.
  induction acts as [|a acts IH]; intros s t HI Hin; simpl in Hin.
  - by apply elem_of_nil in Hin.
  - apply elem_of_app in Hin as [Hin | Hin].
    + right. unfold appended_by in Hin.
      destruct a; try (by apply elem_of_nil in Hin).
      destruct (pp s); try (by apply elem_of_nil in Hin).
      by apply list_elem_of_singleton in Hin as ->.
    + pose proof (IH _ _ (inv_step cfg s a HI) Hin) as Hs.
      destruct (appended_by s a) as [|t1 l] eqn:Eb;
        [by eapply appendable_back|].
      (* the step appends: the producer then stands after the append *)
      unfold appended_by in Eb. destruct a as [d|i|i]; try done.
      destruct s as [w p c]. simpl in *. destruct p; try done.
      injection Eb as <- <-. destruct Hs as [Hn | Hh]; [|done].
      simpl in Hn. destruct (inv_prod _ _ HI t0 eq_refl) as [Hq _].
      simpl in Hq. destruct (decide (t = t0)) as [->|Hne]; [by right|].
      by left.
Qed.

Lemma appended_nodup acts : forall s, Inv cfg s -> NoDup (appended cfg s acts).
Proof.
  induction acts as [|a acts IH]; intros s HI; simpl; [constructor|].
  pose proof (IH _ (inv_step cfg s a HI)) as Hrest.
  destruct (appended_by s a) as [|t1 l] eqn:Eb; [done|].
  unfold appended_by in Eb. destruct a as [d|i|i]; try done.
  destruct s as [w p c]. simpl in *. destruct p; try done.
  injection Eb as <- <-. simpl. constructor; [|done].
  intros Hin.
  apply (appended_appendable acts _ _ (inv_step cfg _ (Producer i) HI)) in Hin.
  destruct (inv_prod _ _ HI t eq_refl) as [Hq _].
  unfold appendable in Hin. simpl in *.
  destruct Hin as [Hn | Hh]; [|done].
  unfold str in *. congruence.
Qed.

End Dispatch.

(** X1. In every interleaving, the identifiers popped so far followed by the
    identifiers still in the queue are exactly the identifiers appended so
    far, in the order they were appended, and no identifier is appended
    twice. *)
Theorem queue_is_fifo_without_repeats (cfg : Zenorc.config)
  (bootstrapped : gset str) (t0 : Q) (acts : list Zenorc.action) :
  let s0 := Zenorc.started bootstrapped t0 in
  Zenorc.appended cfg s0 acts =
    Zenorc.popped cfg s0 acts ++ Zenorc.queue (Zenorc.sw (Zenorc.run cfg s0 acts)) /\
  NoDup (Zenorc.appended cfg s0 acts).
Proof.
  intros s0. split.
  - exact (queue_history cfg acts s0).
  - apply appended_nodup, inv_started.
Qed.


(** X3. In no interleaving does [processor] die on [queue.popleft()]: the
    queue is never empty when it pops. *)
Theorem processor_never_pops_empty (cfg : Zenorc.config)
  (bootstrapped : gset str) (t0 : Q) (acts : list Zenorc.action) :
  let s := Zenorc.run cfg (Zenorc.started bootstrapped t0) acts in
  (forall e, Zenorc.cp s <> Zenorc.C_crashed e) /\
  (Zenorc.cp s = Zenorc.C_pop -> Zenorc.queue (Zenorc.sw s) <> []).
Proof.
  intros s. pose proof (inv_reachable cfg bootstrapped t0 acts) as HI.
  fold s in HI. split.
  - apply (Zenorc.inv_alive _ _ HI).
  - intros Hc. by destruct (Zenorc.inv_pop _ _ HI Hc).
Qed.

(** ** The publisher's retries *)

Section Retries.
Context (cfg : Zenorc.config) (env : Z -> Zenorc.attempt_env)
  (max_retries retry_delay : Z).
Import Zenorc.

Lemma run_attempt_returned attempt b a :
  snd (fst (run_attempt cfg max_retries retry_delay attempt b a)) =
  published (outcome_of a).
Proof.
  unfold run_attempt, attempt_body. by destruct (outcome_of a).
Qed.

Lemma attempts_from_spec n : forall attempt bound,
  let r := attempts_from cfg max_retries retry_delay n attempt bound env in
  let len := length (fst r) in
  (len <= n)%nat /\
  (snd r = true ->
   (1 <= len)%nat /\
   published (outcome_of (env (attempt + Z.of_nat len - 1)%Z)) = true /\
   forall j, (attempt <= j < attempt + Z.of_nat len - 1)%Z ->
             published (outcome_of (env j)) = false) /\
  (snd r = false ->
   len = n /\
   forall j, (attempt <= j < attempt + Z.of_nat n)%Z ->
             published (outcome_of (env j)) = false).
Proof.
  induction n as [|n IH]; intros attempt bound; cbn [attempts_from].
  - simpl. split; [lia|]. split; [done|]. intros _. split; [done | lia].
  - pose proof (run_attempt_returned attempt bound (env attempt)) as Hr.
    destruct (run_attempt cfg max_retries retry_delay attempt bound (env attempt))
      as [[evs returned] bound'].
    simpl in Hr. subst returned.
    destruct (published (outcome_of (env attempt))) eqn:Ep.
    + simpl. split; [lia|]. split; [|done]. intros _. split; [lia|].
      split; [|lia].
      transitivity (published (outcome_of (env attempt)));
        [do 3 f_equal; lia | done].
    + specialize (IH (attempt + 1)%Z bound').
      destruct (attempts_from cfg max_retries retry_delay n (attempt + 1) bound' env)
        as [later ok].
      cbn [fst snd length] in *. destruct IH as (Hlen & Ht & Hf).
      split; [lia|]. split.
      * intros Hok. destruct (Ht Hok) as (H1 & Hp & Hb). split; [lia|]. split.
        -- rewrite <- Hp. do 3 f_equal. lia.
        -- intros j Hj. destruct (decide (j = attempt)) as [->|Hne]; [done|].
           apply Hb. lia.
      * intros Hok. destruct (Hf Hok) as (H1 & Hb). split; [lia|].
        intros j Hj. destruct (decide (j = attempt)) as [->|Hne]; [done|].
        apply Hb. lia.
Qed.

Lemma elem_of_body_not_sleep o d :
  EvSleep d ∉ fst (attempt_body cfg o).
Proof.
  intros Hin. unfold attempt_body in Hin.
  destruct o; destruct (falsy (MQTT_USERNAME cfg)); simpl in Hin;
    repeat (apply elem_of_cons in Hin as [Hin | Hin]; [discriminate|]);
    by apply elem_of_nil in Hin.
Qed.

Lemma elem_of_finally_not_sleep b a d : EvSleep d ∉ attempt_finally b a.
Proof.
  unfold attempt_finally, teardown. intros Hin.
  destruct (b && connected_at_exit a);
    repeat (apply elem_of_cons in Hin as [Hin | Hin]; [discriminate|]);
    by apply elem_of_nil in Hin.
Qed.

Lemma handler_sleep attempt e d :
  EvSleep d ∈ attempt_handler max_retries retry_delay attempt e <->
  d = retry_delay /\ (attempt < max_retries)%Z.
Proof.
  unfold attempt_handler. rewrite elem_of_cons. split.
  - intros [?|Hh]; [done|].
    destruct (attempt <? max_retries)%Z eqn:E; [|by apply elem_of_nil in Hh].
    apply list_elem_of_singleton in Hh as [= ->]. by apply Z.ltb_lt in E.
  - intros [-> Hlt]. right. apply Z.ltb_lt in Hlt. rewrite Hlt.
    apply list_elem_of_here.
Qed.

Lemma run_attempt_sleep attempt b a d :
  EvSleep d ∈ fst (fst (run_attempt cfg max_retries retry_delay attempt b a)) <->
  d = retry_delay /\ (attempt < max_retries)%Z /\ published (outcome_of a) = false.
Proof.
  unfold run_attempt.
  pose proof (elem_of_body_not_sleep (outcome_of a) d) as Hbody.
  pose proof (elem_of_finally_not_sleep (b || binds_client (outcome_of a)) a d) as Hfin.
  assert (snd (attempt_body cfg (outcome_of a)) = Ok tt <->
          published (outcome_of a) = true) as Hok.
  { unfold attempt_body. by destruct (outcome_of a). }
  destruct (attempt_body cfg (outcome_of a)) as [evs r].
  cbn [fst snd] in *.
  destruct r as [[]|e]; cbn [fst].
  - rewrite elem_of_app. split;
      [intros [?|?]; [by destruct Hbody | by destruct Hfin]|].
    intros (_ & _ & Hp). destruct Hok as [Hok _]. rewrite Hok in Hp; done.
  - rewrite elem_of_app, elem_of_app, handler_sleep. split.
    + intros [?|[[-> Hlt]|?]]; [by destruct Hbody | | by destruct Hfin].
      split; [done|]. split; [done|].
      destruct (published (outcome_of a)); [|done].
      destruct Hok as [_ Hok]. by specialize (Hok eq_refl).
    + intros (-> & Hlt & _). by right; left.
Qed.

Lemma run_attempt_ack_timeout attempt b a :
  outcome_of a = AckTimeout -> connected_at_exit a = false ->
  let evs := fst (fst (run_attempt cfg max_retries retry_delay attempt b a)) in
  EvLoopStart ∈ evs /\ (EvLoopStop ∉ evs) /\ (EvDisconnect ∉ evs).
Proof.
  intros Ho Hc. unfold run_attempt, attempt_body, attempt_finally.
  rewrite Ho, Hc, andb_false_r. cbn [fst]. rewrite app_nil_r. split.
  - apply elem_of_app. left. apply elem_of_app. right.
    do 2 apply list_elem_of_further. apply list_elem_of_here.
  - split; intros [Hin | Hin]%elem_of_app.
    + destruct (falsy (MQTT_USERNAME cfg)); simpl in Hin;
        repeat (apply elem_of_cons in Hin as [Hin | Hin]; [discriminate|]);
        by apply elem_of_nil in Hin.
    + apply elem_of_handler in Hin as [(l & m & Hin) | (d & Hin)]; discriminate.
    + destruct (falsy (MQTT_USERNAME cfg)); simpl in Hin;
        repeat (apply elem_of_cons in Hin as [Hin | Hin]; [discriminate|]);
        by apply elem_of_nil in Hin.
    + apply elem_of_handler in Hin as [(l & m & Hin) | (d & Hin)]; discriminate.
Qed.

End Retries.

(** X4. [send_mqtt] makes at most [max_retries] attempts and stops at the
    first one whose publish the broker accepts: it returns True exactly when
    the last attempt it made published and none before it did, and False
    exactly when it made all [max_retries] attempts and none published (no
    attempt at all when [max_retries] is zero or negative). *)
Theorem send_mqtt_stops_at_first_success (cfg : Zenorc.config)
  (env : Z -> Zenorc.attempt_env) (max_retries retry_delay : Z) :
  let r := Zenorc.send_mqtt cfg env max_retries retry_delay in
  let made := length (fst r) in
  (made <= Z.to_nat max_retries)%nat /\
  (snd r = true ->
   (1 <= made)%nat /\
   Zenorc.published (Zenorc.outcome_of (env (Z.of_nat made))) = true /\
   forall j, (1 <= j < Z.of_nat made)%Z ->
             Zenorc.published (Zenorc.outcome_of (env j)) = false) /\
  (snd r = false ->
   made = Z.to_nat max_retries /\
   forall j, (1 <= j <= max_retries)%Z ->
             Zenorc.published (Zenorc.outcome_of (env j)) = false).
Proof.
  intros r made.
  pose proof (attempts_from_spec cfg env max_retries retry_delay
                (Z.to_nat max_retries) 1%Z false) as H.
  cbv zeta in H. fold (Zenorc.send_mqtt cfg env max_retries retry_delay) in H.
  fold r in H. fold made in H. destruct H as (Hlen & Ht & Hf).
  split; [done|]. split.
  - intros Hok. destruct (Ht Hok) as (H1 & Hp & Hb). split; [done|]. split.
    + rewrite <- Hp. do 3 f_equal. lia.
    + intros j Hj. apply Hb. lia.
  - intros Hok. destruct (Hf Hok) as (H1 & Hb). split; [done|].
    intros j Hj. apply Hb. lia.
Qed.

(** X5. [send_mqtt] sleeps only between attempts: an attempt contains a
    sleep exactly when it failed and is not the [max_retries]-th, and the
    sleep is then [retry_delay] seconds. *)
Theorem send_mqtt_sleeps_only_between_attempts (cfg : Zenorc.config)
  (env : Z -> Zenorc.attempt_env) (max_retries retry_delay : Z)
  (k : nat) (evs : list Zenorc.event) (d : Z) :
  fst (Zenorc.send_mqtt cfg env max_retries retry_delay) !! k = Some evs ->
  (Zenorc.EvSleep d ∈ evs <->
   d = retry_delay /\ (1 + Z.of_nat k < max_retries)%Z /\
   Zenorc.published (Zenorc.outcome_of (env (1 + Z.of_nat k)%Z)) = false).
Proof.
  intros Hk. unfold Zenorc.send_mqtt in Hk.
  destruct (Zenorc.attempts_from cfg max_retries retry_delay
              (Z.to_nat max_retries) 1 false env) as [trace ok] eqn:E.
  simpl in Hk.
  destruct (attempts_from_lookup _ _ _ _ _ _ _ _ _ _ _ E Hk) as [b <-].
  apply run_attempt_sleep.
Qed.

Lemma send_mqtt_sleeps_witness :
  Zenorc.EvSleep 5 ∈
    [Zenorc.EvClient; Zenorc.EvCredentials; Zenorc.EvTls;
     Zenorc.EvLog "WARN"
       (lit "MQTT attempt 1 failed: [Errno 111] Connection refused");
     Zenorc.EvSleep 5].
Proof.
  apply (send_mqtt_sleeps_only_between_attempts Samples.cfg
           Samples.third_time_lucky 3 5 0); [reflexivity|].
  split; [reflexivity|]. split; [lia | reflexivity].
Defined.

(** X6. An attempt on which the broker never acknowledges the connection,
    the client not being connected when the attempt exits, has started the
    network loop and ends without stopping it or disconnecting. *)
Theorem ack_timeout_leaves_loop (cfg : Zenorc.config)
  (env : Z -> Zenorc.attempt_env) (max_retries retry_delay : Z)
  (k : nat) (evs : list Zenorc.event) :
  fst (Zenorc.send_mqtt cfg env max_retries retry_delay) !! k = Some evs ->
  Zenorc.outcome_of (env (1 + Z.of_nat k)%Z) = Zenorc.AckTimeout ->
  Zenorc.connected_at_exit (env (1 + Z.of_nat k)%Z) = false ->
  Zenorc.EvLoopStart ∈ evs /\ (Zenorc.EvLoopStop ∉ evs) /\
  (Zenorc.EvDisconnect ∉ evs).
Proof.
  intros Hk Ho Hc. unfold Zenorc.send_mqtt in Hk.
  destruct (Zenorc.attempts_from cfg max_retries retry_delay
              (Z.to_nat max_retries) 1 false env) as [trace ok] eqn:E.
  simpl in Hk.
  destruct (attempts_from_lookup _ _ _ _ _ _ _ _ _ _ _ E Hk) as [b <-].
  by apply run_attempt_ack_timeout.
Qed.

Lemma ack_timeout_leaves_loop_witness :
  Zenorc.EvLoopStart ∈
    [Zenorc.EvClient; Zenorc.EvCredentials; Zenorc.EvTls; Zenorc.EvConnect;
     Zenorc.EvLoopStart;
     Zenorc.EvLog "WARN" (lit "MQTT attempt 1 failed: MQTT connection timed out")].
Proof.
  exact (proj1 (ack_timeout_leaves_loop Samples.cfg Samples.silent_broker 1 5 0
                  _ eq_refl eq_refl eq_refl)).
Defined.

(** ** The identifier is a whole run of digits *)

Section Greedy.
Context (U : unicode).
Import Re Zenorc.

Lemma star_maximal k cont g x s : forall p,
  accepting cont -> star U k cont p g s = Some x -> stops U k (rest x).
Proof.
  induction s as [|t s IH]; intros p Hc H; simpl in H.
  - destruct (Hc (MState p [] g)) as (y & Hy & Hr). simpl in Hr.
    rewrite Hy in H. injection H as <-. by rewrite Hr.
  - destruct (in_cls U k t) eqn:Et.
    + destruct (star_stop U k cont (Some t) g s) as [r Hr].
      { destruct (Hc (MState (Some t) s g)) as (y & -> & _). by eexists. }
      rewrite Hr in H. injection H as <-. by eapply IH.
    + destruct (Hc (MState p (t :: s) g)) as (y & Hy & Hr). simpl in Hr.
      rewrite Hy in H. injection H as <-. rewrite Hr. exact Et.
Qed.

Lemma atleast_maximal n k cont g x : forall p s,
  accepting cont -> atleast U n k cont p g s = Some x -> stops U k (rest x).
Proof.
  induction n as [|n IH]; intros p s Hc H; simpl in H.
  - by eapply star_maximal.
  - destruct s as [|t s]; [done|]. destruct (in_cls U k t); [|done].
    by eapply IH.
Qed.

Lemma group_last_maximal n k rs : forall st x,
  m U (seqs (rs ++ [Group (AtLeast n k)])) Some st = Some x ->
  stops U k (rest x).
Proof.
  induction rs as [|r rs IH]; intros st x H; cbn [app] in H; seqs_step.
  - cbn [m] in H. eapply atleast_maximal; [|exact H].
    intros st'. eexists. split; [reflexivity | done].
  - cbn [m] in H. apply m_sound in H as (w & post & g' & _ & _ & H).
    by eapply IH.
Qed.

Lemma search_from_result r s : forall p x,
  search_from U r p s = Some x ->
  exists p' s', m U r Some (MState p' s' None) = Some x.
Proof.
  induction s as [|t s IH]; intros p x H; simpl in H.
  - destruct (m U r Some (MState p [] None)) eqn:E; [|done].
    injection H as <-. by eexists _, _.
  - destruct (m U r Some (MState p (t :: s) None)) eqn:E.
    + injection H as <-. by eexists _, _.
    + by eapply IH.
Qed.

Lemma M_seqs_group_suffix n k rs : forall p g w post g',
  M U (seqs (rs ++ [Group (AtLeast n k)])) p g w post g' ->
  exists w0 d, w = w0 ++ d /\ g' = Some d.
Proof.
  induction rs as [|r rs IH]; intros p g w post g' H; cbn [app] in H; seqs_step.
  - apply M_seq_inv in H as (w1 & w2 & g1 & -> & Hg & He).
    apply M_eps_inv in He as [-> ->].
    apply M_group_inv in Hg as [-> _]. exists [], w1. by rewrite app_nil_r.
  - apply M_seq_inv in H as (w1 & w2 & g1 & -> & _ & H).
    destruct (IH _ _ _ _ _ H) as (w0 & d & -> & ->).
    exists (w1 ++ w0), d. by rewrite app_assoc.
Qed.

Lemma found_whole_run lead body x :
  seqs (lead ++ [Group (AtLeast 8 CDigit)]) ∈ patterns ->
  search U (seqs (lead ++ [Group (AtLeast 8 CDigit)])) body = Some x ->
  exists pre g post,
    body = pre ++ g ++ post /\ group1 x = Some g /\
    reference_digits U g /\ no_digit_next U post.
Proof.
  intros Hin Hs.
  destruct (search_leftmost U _ _ _ Hs) as (pre & w & post & Hl & Hrest).
  destruct (search_from_result _ _ _ _ Hs) as (p' & s' & Hm).
  apply group_last_maximal in Hm. rewrite Hrest in Hm.
  pose proof Hl as [[Hbody HM] _].
  apply M_seqs_group_suffix in HM as (w0 & d & -> & Hg).
  exists (pre ++ w0), d, post. split; [by rewrite Hbody, <- !app_assoc|].
  split; [done|]. split; [|exact Hm].
  apply (pattern_group U _ body d Hin). exists pre, (w0 ++ d), post.
  rewrite Hg in Hl. exact Hl.
Qed.

End Greedy.

(** X7. When either reference pattern is found in the body, the identifier
    [_extract_txn_id] returns is a run of eight or more digits of the body
    that is not cut short: the body does not go on with a digit after it. *)
Theorem extracted_id_is_whole_digit_run (U : unicode) (body : str) (now : Q) :
  Re.matches U Zenorc.pattern_reference body \/
  Re.matches U Zenorc.pattern_transaction body ->
  exists pre g post,
    body = pre ++ g ++ post /\
    Zenorc._extract_txn_id U body now = Some g /\
    Zenorc.reference_digits U g /\ Zenorc.no_digit_next U post.
Proof.
  intros H. unfold Zenorc._extract_txn_id, Zenorc.patterns.
  cbn [Zenorc.first_match].
  destruct (Re.search U Zenorc.pattern_reference body) as [x|] eqn:E1.
  - destruct (found_whole_run U Zenorc.reference_lead body x) as
      (pre & g & post & ? & ? & ? & ?); [by apply elem_of_cons; left | exact E1 |].
    by exists pre, g, post.
  - destruct H as [H | H]; [apply search_matches in H as [y Hy];
                            unfold Zenorc.pattern_reference in *; congruence|].
    apply search_matches in H as [x E2]. rewrite E2.
    destruct (found_whole_run U Zenorc.transaction_lead body x) as
      (pre & g & post & ? & ? & ? & ?);
      [apply elem_of_cons; right; by apply list_elem_of_singleton | exact E2 |].
    by exists pre, g, post.
Qed.

Lemma extracted_id_witness :
  exists pre g post,
    Samples.notice = pre ++ g ++ post /\
    Zenorc._extract_txn_id Samples.ascii_only Samples.notice 0 = Some g /\
    Zenorc.no_digit_next Samples.ascii_only post.
Proof.
  destruct (extracted_id_is_whole_digit_run Samples.ascii_only Samples.notice 0)
    as (pre & g & post & H1 & H2 & _ & H4).
  - left. apply search_matches. vm_compute. by eexists.
  - by exists pre, g, post.
Defined.

(** ** Classification does not depend on the case of ASCII letters *)

Lemma ascii_lower_upper c :
  is_ascii c = true ->
  is_ascii (Zenorc.ascii_upper c) = true /\
  ascii_lower (Zenorc.ascii_upper c) = ascii_lower c.
Proof.
  unfold is_ascii, Zenorc.ascii_upper, ascii_lower, ascii_lower_p, ascii_upper_p.
  intros H. apply N.ltb_lt in H.
  destruct (97 <=? c) eqn:E1; destruct (c <=? 122) eqn:E2; simpl;
    try (split; [by apply N.ltb_lt | done]).
  apply N.leb_le in E1. apply N.leb_le in E2.
  split; [apply N.ltb_lt; lia|].
  replace (65 <=? c - 32) with true by (symmetry; apply N.leb_le; lia).
  replace (c - 32 <=? 90) with true by (symmetry; apply N.leb_le; lia).
  replace (65 <=? c) with true by (symmetry; apply N.leb_le; lia).
  replace (c <=? 90) with false by (symmetry; apply N.leb_gt; lia).
  simpl. lia.
Qed.

Lemma ascii_upper_outside c :
  is_ascii c = false -> Zenorc.ascii_upper c = c.
Proof.
  unfold is_ascii, Zenorc.ascii_upper, ascii_lower_p. intros H.
  apply N.ltb_ge in H.
  replace (c <=? 122) with false by (symmetry; apply N.leb_gt; lia).
  by rewrite andb_false_r.
Qed.

Lemma lower_upper U s : lower U (map Zenorc.ascii_upper s) = lower U s.
Proof.
  unfold lower. induction s as [|c s IH]; [done|].
  cbn [map flat_map]. rewrite IH. f_equal.
  destruct (is_ascii c) eqn:E.
  - destruct (ascii_lower_upper c E) as [-> ->]. done.
  - by rewrite (ascii_upper_outside c E), E.
Qed.

(** X8. Whether a body is classified as a payment does not depend on the
    case of its ASCII letters: the body and the body with its ASCII letters
    in upper case are classified alike. *)
Theorem classify_ignores_ascii_case (U : unicode) (body : str) :
  Zenorc.classify U (map Zenorc.ascii_upper body) = Zenorc.classify U body.
Proof. unfold Zenorc.classify. by rewrite lower_upper. Qed.

(** ** The inbox scanner *)

Section Scanner.
Context (U : unicode) (mb : Zenorc.mailbox).
Import Zenorc.

Lemma scan_ends_skip seen w u uids r seen' w' ops ops' :
  passed_over U mb seen w u ->
  (forall x, x ∈ ops -> x ∈ ops') ->
  scan_ends U mb seen w uids r seen' w' ops ->
  scan_ends U mb seen w (u :: uids) r seen' w' ops'.
Proof.
  intros Hp Hsub Hs. destruct r as [o| |e]; simpl in *.
  - destruct Hs as (l1 & u0 & l2 & -> & Hl & Hq & Hst & Hseen & Hw & Hin).
    exists (u :: l1), u0, l2. split; [done|]. split; [by constructor|].
    repeat (split; [done|]). by apply Hsub.
  - destruct Hs as (Hl & Hrest). split; [by constructor | done].
  - destruct Hs as (l1 & u0 & l2 & -> & Hl & Hw & Hcase).
    exists (u :: l1), u0, l2. split; [done|]. split; [by constructor|].
    split; [done|]. destruct Hcase as [?|(o & ? & ? & ? & Hin)]; [by left|].
    right. exists o. repeat (split; [done|]). by apply Hsub.
Qed.

Lemma scan_spec uids seen w : forall r seen' w' ops,
  scan U mb uids seen w = (r, seen', w', ops) ->
  scan_ends U mb seen w uids r seen' w' ops.
Proof.
  induction uids as [|u uids IH]; intros r seen' w' ops H; cbn [scan] in H.
  - injection H as <- <- <- <-. by repeat split.
  - case_bool_decide as Hseen.
    { eapply scan_ends_skip; [by left | | by apply IH]. done. }
    destruct (fetch mb u) as [msg|e] eqn:Ef.
    + assert (forall r0 s0 w0 ops0,
                (body_of msg = [] \/ classify U (body_of msg) = false \/
                 recorded w (_extract_txn_id U (body_of msg) (clock w)) = true) ->
                scan U mb uids seen w = (r0, s0, w0, ops0) ->
                scan_ends U mb seen w (u :: uids) r0 s0 w0 (IFetch u :: ops0))
        as Hover.
      { intros r0 s0 w0 ops0 Hwhy Hs.
        eapply scan_ends_skip; [right; by exists msg | | by apply IH].
        intros x Hx. by right. }
      destruct (decide (body_of msg = [])) as [Hb|Hb].
      { rewrite bool_decide_true in H by done.
        destruct (scan U mb uids seen w) as [[[r0 s0] w0] ops0] eqn:Es.
        injection H as <- <- <- <-. apply Hover; auto. }
      rewrite bool_decide_false in H by done.
      destruct (_is_valid_payment U (lower U (body_of msg))) eqn:Ev; cbn [negb] in H.
      2:{ destruct (scan U mb uids seen w) as [[[r0 s0] w0] ops0] eqn:Es.
          injection H as <- <- <- <-. apply Hover; auto. }
      destruct (recorded w (_extract_txn_id U (body_of msg) (clock w))) eqn:Er.
      { destruct (scan U mb uids seen w) as [[[r0 s0] w0] ops0] eqn:Es.
        injection H as <- <- <- <-. apply Hover; auto. }
      assert (qualifies U mb seen w u (_extract_txn_id U (body_of msg) (clock w)))
        as Hq.
      { split; [done|]. exists msg. by repeat split. }
      assert (IStore u ∈ [IFetch u; IStore u]) as Hin
        by apply list_elem_of_further, list_elem_of_here.
      destruct (store mb u) as [e|] eqn:Est.
      * injection H as <- <- <- <-. exists [], u, uids.
        split; [done|]. split; [constructor|]. split; [done|].
        right. by eexists.
      * injection H as <- <- <- <-. exists [], u, uids.
        split; [done|]. split; [constructor|]. split; [exact Hq|].
        split; [done|]. split; [reflexivity|]. split; [reflexivity | done].
    + injection H as <- <- <- <-. exists [], u, uids.
      split; [done|]. split; [constructor|]. split; [done|]. by left.
Qed.

Lemma sends_nil_any uids seen u : sends_within uids seen seen [] u.
Proof.
  unfold sends_within.
  split; [intros H; by apply elem_of_nil in H|].
  split; [intros H; by apply elem_of_nil in H|].
  split; [apply not_elem_of_nil|]. split; [apply not_elem_of_nil|].
  split; [apply not_elem_of_nil | simpl; lia].
Qed.

Lemma sends_nil seen u : sends_within [] seen seen [] u.
Proof.
  unfold sends_within.
  split; [intros H; by apply elem_of_nil in H|].
  split; [intros H; by apply elem_of_nil in H|].
  split; [apply not_elem_of_nil|]. split; [apply not_elem_of_nil|].
  split; [apply not_elem_of_nil | simpl; lia].
Qed.

Lemma sends_skip u0 uids seen seen' ops u :
  sends_within uids seen seen' ops u -> sends_within (u0 :: uids) seen seen' ops u.
Proof.
  intros (Hf & Hs & H1 & H2 & H3 & Hl). unfold sends_within.
  split; [intros H; apply Hf in H as [? ?]; split; [by right | done]|].
  split; [intros H; apply Hs in H as (? & ? & ?); split; [by right | done]|].
  split; [done|]. split; [done|]. split; [done | simpl; lia].
Qed.

Lemma sends_fetch u0 uids seen seen' ops u :
  (u0 ∉ seen) ->
  sends_within uids seen seen' ops u ->
  sends_within (u0 :: uids) seen seen' (IFetch u0 :: ops) u.
Proof.
  intros Hn (Hf & Hs & H1 & H2 & H3 & Hl). unfold sends_within.
  split.
  { intros [[= ->]|H]%elem_of_cons; [split; [by left | done]|].
    apply Hf in H as [? ?]. split; [by right | done]. }
  split.
  { intros [?|H]%elem_of_cons; [done|].
    apply Hs in H as (? & ? & ?). split; [by right | done]. }
  split; [intros [?|?]%elem_of_cons; done|].
  split; [intros [?|?]%elem_of_cons; done|].
  split; [intros [?|?]%elem_of_cons; done | simpl; lia].
Qed.

Lemma sends_fetch_only u0 uids seen u :
  (u0 ∉ seen) -> sends_within (u0 :: uids) seen seen [IFetch u0] u.
Proof.
  intros Hn. apply sends_fetch; [done|]. apply sends_nil_any.
Qed.

Lemma sends_store u0 uids seen u :
  (u0 ∉ seen) ->
  sends_within (u0 :: uids) seen ({[u0]} ∪ seen) [IFetch u0; IStore u0] u.
Proof.
  intros Hn. unfold sends_within.
  split.
  { intros [[= ->]|H]%elem_of_cons; [split; [by left | done]|].
    by apply list_elem_of_singleton in H. }
  split.
  { intros [?|H]%elem_of_cons; [done|].
    apply list_elem_of_singleton in H as [= ->]. split; [by left | done]. }
  split; [intros [?|?%list_elem_of_singleton]%elem_of_cons; done|].
  split; [intros [?|?%list_elem_of_singleton]%elem_of_cons; done|].
  split; [intros [?|?%list_elem_of_singleton]%elem_of_cons; done | simpl; lia].
Qed.

(** The commands of the loop: a message is fetched only if it is listed and
    not yet seen; one is marked read only if it was just added to
    [seen_uids]. *)
Lemma scan_ops uids seen w u : forall r seen' w' ops,
  scan U mb uids seen w = (r, seen', w', ops) ->
  sends_within uids seen seen' ops u.
Proof.
  induction uids as [|u0 uids IH]; intros r seen' w' ops H; cbn [scan] in H.
  - injection H as <- <- <- <-. apply sends_nil.
  - case_bool_decide as Hseen; [by eapply sends_skip, IH|].
    destruct (fetch mb u0) as [msg|e] eqn:Ef.
    + destruct (bool_decide (body_of msg = [])).
      { destruct (scan U mb uids seen w) as [[[r0 s0] w0] ops0] eqn:Es.
        injection H as <- <- <- <-. apply sends_fetch; [done|]. by eapply IH. }
      destruct (negb (_is_valid_payment U (lower U (body_of msg)))).
      { destruct (scan U mb uids seen w) as [[[r0 s0] w0] ops0] eqn:Es.
        injection H as <- <- <- <-. apply sends_fetch; [done|]. by eapply IH. }
      destruct (recorded w (_extract_txn_id U (body_of msg) (clock w))).
      { destruct (scan U mb uids seen w) as [[[r0 s0] w0] ops0] eqn:Es.
        injection H as <- <- <- <-. apply sends_fetch; [done|]. by eapply IH. }
      destruct (store mb u0); injection H as <- <- <- <-; by apply sends_store.
    + injection H as <- <- <- <-. by apply sends_fetch_only.
Qed.

End Scanner.

Section Polling.
Context (U : unicode) (mc : Zenorc.mail_config) (mb : Zenorc.mailbox).
Import Zenorc.

Lemma elem_of_window ids u :
  u ∈ window ids <-> u ∈ drop (length ids - 30) ids.
Proof. unfold window. by rewrite !list_elem_of_In, <- in_rev. Qed.

Lemma window_length ids : (length (window ids) <= 30)%nat.
Proof. unfold window. rewrite length_rev, length_drop. lia. Qed.

(** [poll_email] either fails before the loop, leaving [seen_uids] alone and
    printing the error, or runs the loop over the window. *)
Lemma poll_email_cases seen w r seen' w' ops :
  poll_email U mc mb seen w = (r, seen', w', ops) ->
  (r = None /\ seen' = seen /\ (forall u, IFetch u ∉ ops) /\
   (forall u, IStore u ∉ ops) /\ (length ops <= 3)%nat /\
   exists e, w' = log "ERROR" (lit "Error polling email: " ++ exn_text e) w) \/
  (exists ids r0 w0 ops0,
     unseen mb = Ok ids /\
     scan U mb (window ids) seen w = (r0, seen', w0, ops0) /\
     ops = [ILogin; ISearch] ++ ops0 ++ [ILogout] /\
     match r0 with
     | Yield o => r = o /\ w' = w0
     | Exhausted => r = None /\ w' = w0
     | Broke e =>
         r = None /\
         w' = log "ERROR" (lit "Error polling email: " ++ exn_text e) w0
     end).
Proof.
  unfold poll_email. intros H.
  destruct (_imap_login mc mb) as [[]|e].
  2:{ injection H as <- <- <- <-. left. repeat split; try done.
      - intros u Hin. by apply elem_of_nil in Hin.
      - intros u Hin. by apply elem_of_nil in Hin.
      - simpl. lia.
      - by exists e. }
  destruct (unseen mb) as [ids|e].
  2:{ injection H as <- <- <- <-. left. repeat split; try done.
      - intros u Hin.
        repeat (apply elem_of_cons in Hin as [Hin | Hin]; [discriminate|]).
        by apply elem_of_nil in Hin.
      - intros u Hin.
        repeat (apply elem_of_cons in Hin as [Hin | Hin]; [discriminate|]).
        by apply elem_of_nil in Hin.
      - by exists e. }
  destruct (scan U mb (window ids) seen w) as [[[r0 s0] w0] ops0] eqn:Es.
  right. exists ids, r0, w0, ops0.
  destruct r0; injection H as <- <- <- <-; by repeat split.
Qed.

Lemma added_uid_unique (seen : gset uid) u u0 :
  (u ∉ seen) -> {[u]} ∪ seen = {[u0]} ∪ seen -> u0 = u.
Proof.
  intros Hn Heq.
  assert (u ∈ ({[u0]} ∪ seen : gset uid)) as Hin.
  { rewrite <- Heq. apply elem_of_union. left. by apply elem_of_singleton. }
  apply elem_of_union in Hin as [Hin | Hin]; [|done].
  by apply elem_of_singleton in Hin.
Qed.

Lemma added_uid_not_old (seen : gset uid) u :
  (u ∉ seen) -> {[u]} ∪ seen <> seen.
Proof.
  intros Hn Heq. apply Hn. rewrite <- Heq.
  apply elem_of_union. left. by apply elem_of_singleton.
Qed.

Lemma in_sent_middle (ops0 : list imap_op) x :
  x <> ILogin -> x <> ISearch -> x <> ILogout ->
  x ∈ [ILogin; ISearch] ++ ops0 ++ [ILogout] -> x ∈ ops0.
Proof.
  intros H1 H2 H3 Hin. apply elem_of_app in Hin as [Hin|Hin].
  - repeat (apply elem_of_cons in Hin as [-> | Hin]; [done|]).
    by apply elem_of_nil in Hin.
  - apply elem_of_app in Hin as [Hin|Hin]; [done|].
    by apply list_elem_of_singleton in Hin as ->.
Qed.

End Polling.

(** What a returned identifier says about the mailbox. *)
Lemma poll_email_some (U : unicode) (mc : Zenorc.mail_config)
  (mb : Zenorc.mailbox) (seen seen' : gset Zenorc.uid) (w w' : Zenorc.world)
  (t : str) (ops : list Zenorc.imap_op) :
  Zenorc.poll_email U mc mb seen w = (Some t, seen', w', ops) ->
  (t ∉ Zenorc.seen_txn_ids w) /\
  exists ids l1 u l2,
    Zenorc.unseen mb = Ok ids /\
    Zenorc.window ids = l1 ++ u :: l2 /\
    Forall (Zenorc.passed_over U mb seen w) l1 /\
    Zenorc.qualifies U mb seen w u (Some t) /\
    Zenorc.store mb u = None /\ Zenorc.IStore u ∈ ops /\
    seen' = {[u]} ∪ seen.
Proof.
  intros H. apply poll_email_cases in H as [(? & _) | H]; [done|].
  destruct H as (ids & r0 & w0 & ops0 & Hu & Es & -> & Hr).
  apply scan_spec in Es. destruct r0 as [o| |e]; [|by destruct Hr..].
  destruct Hr as [<- ->].
  destruct Es as (l1 & u & l2 & Hw & Hl & Hq & Hst & -> & _ & Hin).
  split.
  - destruct Hq as (_ & msg & _ & _ & _ & _ & Hr). simpl in Hr.
    by apply bool_decide_eq_false in Hr.
  - exists ids, l1, u, l2. repeat (split; [done|]). split; [|done].
    apply elem_of_app. right. apply elem_of_app. by left.
Qed.

(** X9. When [poll_email] returns an identifier, it comes from a message
    among the last thirty listed as unread that was not in [seen_uids], has a
    non-empty body classified as a payment, and yields that identifier; the
    identifier is not in the recorded set; every more recent message of the
    thirty was passed over (already seen, empty, not a payment, or already
    recorded); the message was marked read and its number is the one added to
    [seen_uids]. *)
Theorem poll_email_yields_new_payment (U : unicode) (mc : Zenorc.mail_config)
  (mb : Zenorc.mailbox) (seen seen' : gset Zenorc.uid) (w w' : Zenorc.world)
  (t : str) (ops : list Zenorc.imap_op) :
  Zenorc.poll_email U mc mb seen w = (Some t, seen', w', ops) ->
  (t ∉ Zenorc.seen_txn_ids w) /\
  exists ids l1 u l2,
    Zenorc.unseen mb = Ok ids /\
    Zenorc.window ids = l1 ++ u :: l2 /\
    Forall (Zenorc.passed_over U mb seen w) l1 /\
    Zenorc.qualifies U mb seen w u (Some t) /\
    Zenorc.store mb u = None /\ Zenorc.IStore u ∈ ops /\
    seen' = {[u]} ∪ seen.
Proof.
  exact (poll_email_some U mc mb seen seen' w w' t ops).
Qed.

Lemma poll_email_yields_witness :
  Samples.txn ∉ Zenorc.seen_txn_ids Samples.empty_world.
Proof.
  refine (proj1 (poll_email_yields_new_payment Samples.ascii_only Samples.mail_cfg
                   (Samples.inbox false) ∅ _ Samples.empty_world _ Samples.txn _ _)).
  vm_compute. reflexivity.
Defined.

(** What [poll_email] leaves alone and what it sends. *)
Lemma poll_email_frame (U : unicode)
  (mc : Zenorc.mail_config) (mb : Zenorc.mailbox) (seen seen' : gset Zenorc.uid)
  (w w' : Zenorc.world) (r : option str) (ops : list Zenorc.imap_op) :
  Zenorc.poll_email U mc mb seen w = (r, seen', w', ops) ->
  (Zenorc.seen_txn_ids w' = Zenorc.seen_txn_ids w /\
   Zenorc.queue w' = Zenorc.queue w /\ Zenorc.status w' = Zenorc.status w /\
   Zenorc.ledger w' = Zenorc.ledger w) /\
  (seen' = seen \/ exists u, (u ∉ seen) /\ seen' = {[u]} ∪ seen /\
                             Zenorc.IStore u ∈ ops) /\
  (forall u, Zenorc.IFetch u ∈ ops \/ Zenorc.IStore u ∈ ops ->
             (u ∉ seen) /\
             exists ids, Zenorc.unseen mb = Ok ids /\
                         u ∈ drop (length ids - 30) ids) /\
  (length ops <= 63)%nat.
Proof.
  intros H. apply poll_email_cases in H as [(-> & -> & Hf & Hs & Hlen & e & ->) | H].
  { split; [done|]. split; [by left|]. split; [|lia].
    intros u [Hin|Hin]; [by apply Hf in Hin | by apply Hs in Hin]. }
  destruct H as (ids & r0 & w0 & ops0 & Hu & Es & -> & Hr).
  pose proof (scan_spec U mb _ _ _ _ _ _ _ Es) as Hspec.
  pose proof (window_length ids) as Hw.
  split; [|split; [|split]].
  - destruct r0 as [o| |e]; simpl in Hspec.
    + destruct Hspec as (l1 & u & l2 & _ & _ & _ & _ & _ & -> & _).
      by destruct Hr as [_ ->].
    + destruct Hspec as (_ & _ & ->). by destruct Hr as [_ ->].
    + destruct Hspec as (l1 & u & l2 & _ & _ & -> & _). by destruct Hr as [_ ->].
  - assert (forall u, Zenorc.IStore u ∈ ops0 ->
                      Zenorc.IStore u ∈ [Zenorc.ILogin; Zenorc.ISearch] ++ ops0
                                        ++ [Zenorc.ILogout]) as Hmid.
    { intros u Hin. apply elem_of_app. right. apply elem_of_app. by left. }
    destruct r0 as [o| |e]; simpl in Hspec.
    + destruct Hspec as (l1 & u & l2 & _ & _ & [Hn _] & _ & -> & _ & Hin).
      right. exists u. auto.
    + destruct Hspec as (_ & -> & _). by left.
    + destruct Hspec as (l1 & u & l2 & _ & _ & _ & [(_ & _ & ->) | Hc]); [by left|].
      destruct Hc as (o & [Hn _] & _ & -> & Hin). right. exists u. auto.
  - intros u Hin.
    destruct (scan_ops U mb _ _ _ u _ _ _ _ Es) as (Hf & Hst & _).
    destruct Hin as [Hin|Hin]; apply in_sent_middle in Hin; try done.
    + apply Hf in Hin as [Hin Hn]. split; [done|]. exists ids.
      by rewrite <- elem_of_window.
    + apply Hst in Hin as (Hin & Hn & _). split; [done|]. exists ids.
      by rewrite <- elem_of_window.
  - destruct (scan_ops U mb _ _ _ [] _ _ _ _ Es) as (_ & _ & _ & _ & _ & Hlen).
    rewrite !length_app. simpl. lia.
Qed.

(** X10. Whatever the server answers, [poll_email] leaves the recorded set,
    the queue, the status mapping and the sheet as they are; [seen_uids] only
    grows, by at most the one message the call marked read; it fetches and
    marks only messages among the last thirty listed that were not in
    [seen_uids], and sends at most 63 commands. *)
Theorem poll_email_touches_only_seen_uids (U : unicode)
  (mc : Zenorc.mail_config) (mb : Zenorc.mailbox) (seen seen' : gset Zenorc.uid)
  (w w' : Zenorc.world) (r : option str) (ops : list Zenorc.imap_op) :
  Zenorc.poll_email U mc mb seen w = (r, seen', w', ops) ->
  (Zenorc.seen_txn_ids w' = Zenorc.seen_txn_ids w /\
   Zenorc.queue w' = Zenorc.queue w /\ Zenorc.status w' = Zenorc.status w /\
   Zenorc.ledger w' = Zenorc.ledger w) /\
  (seen' = seen \/ exists u, (u ∉ seen) /\ seen' = {[u]} ∪ seen /\
                             Zenorc.IStore u ∈ ops) /\
  (forall u, Zenorc.IFetch u ∈ ops \/ Zenorc.IStore u ∈ ops ->
             (u ∉ seen) /\
             exists ids, Zenorc.unseen mb = Ok ids /\
                         u ∈ drop (length ids - 30) ids) /\
  (length ops <= 63)%nat.
Proof.
  exact (poll_email_frame U mc mb seen seen' w w' r ops).
Qed.

Lemma poll_email_touches_witness :
  Zenorc.queue
    (snd (fst (Zenorc.poll_email Samples.ascii_only Samples.mail_cfg
                 (Samples.inbox false) ∅ Samples.empty_world)))
  = Zenorc.queue Samples.empty_world.
Proof.
  destruct (Zenorc.poll_email Samples.ascii_only Samples.mail_cfg
              (Samples.inbox false) ∅ Samples.empty_world)
    as [[[r seen'] w'] ops] eqn:E.
  exact (proj1 (proj2 (proj1
    (poll_email_touches_only_seen_uids _ _ _ _ _ _ _ _ _ E)))).
Defined.

(** X11. When the server refuses to mark a qualifying message read,
    [poll_email] returns None although the message qualified, and the
    message's number is in [seen_uids] afterwards; no later call, whatever the
    server then answers, fetches that message again. *)
Theorem unmarked_payment_is_dropped (U : unicode) (mc : Zenorc.mail_config)
  (mb : Zenorc.mailbox) (seen seen' : gset Zenorc.uid) (w w' : Zenorc.world)
  (r : option str) (ops : list Zenorc.imap_op) (u : Zenorc.uid) (e : exn) :
  Zenorc.poll_email U mc mb seen w = (r, seen', w', ops) ->
  Zenorc.IStore u ∈ ops -> Zenorc.store mb u = Some e ->
  r = None /\ u ∈ seen' /\
  (exists o, Zenorc.qualifies U mb seen w u o) /\
  forall mc2 mb2 w2 r2 seen2 w2' ops2,
    Zenorc.poll_email U mc2 mb2 seen' w2 = (r2, seen2, w2', ops2) ->
    (Zenorc.IFetch u ∉ ops2) /\ u ∈ seen2.
Proof.
  intros H Hin Hst.
  apply poll_email_cases in H as [(_ & _ & _ & Hs & _) | H];
    [by apply Hs in Hin|].
  destruct H as (ids & r0 & w0 & ops0 & Hu & Es & -> & Hr).
  apply in_sent_middle in Hin; try done.
  destruct (scan_ops U mb _ _ _ u _ _ _ _ Es) as (_ & Hstore & _).
  destruct (Hstore Hin) as (_ & Hn & Hseen').
  pose proof (scan_spec U mb _ _ _ _ _ _ _ Es) as Hspec.
  assert (u ∈ seen') as Hu'.
  { rewrite Hseen'. apply elem_of_union. left. by apply elem_of_singleton. }
  assert (r = None /\ exists o, Zenorc.qualifies U mb seen w u o) as [-> Hq].
  { destruct r0 as [o| |e0]; simpl in Hspec.
    - destruct Hspec as (l1 & u0 & l2 & _ & _ & _ & Hst0 & Hseen & _ & _).
      rewrite Hseen' in Hseen. apply added_uid_unique in Hseen as ->; [|done].
      congruence.
    - destruct Hspec as (_ & Hseen & _). rewrite Hseen' in Hseen.
      by apply added_uid_not_old in Hseen.
    - destruct Hr as [-> _]. split; [done|].
      destruct Hspec as (l1 & u0 & l2 & _ & _ & _ & [(_ & _ & Hseen) | Hc]).
      + rewrite Hseen' in Hseen. by apply added_uid_not_old in Hseen.
      + destruct Hc as (o & Hq & _ & Hseen & _).
        rewrite Hseen' in Hseen. apply added_uid_unique in Hseen as ->; [|done].
        by exists o. }
  split; [done|]. split; [done|]. split; [done|].
  intros mc2 mb2 w2 r2 seen2 w2' ops2 H2.
  pose proof (poll_email_frame _ _ _ _ _ _ _ _ _ H2)
    as (_ & Hgrow & Hsent2 & _).
  split.
  - intros Hf. by destruct (Hsent2 u (or_introl Hf)) as [Hn2 _].
  - destruct Hgrow as [-> | (u2 & _ & -> & _)]; [done|].
    apply elem_of_union. by right.
Qed.

Lemma unmarked_payment_witness :
  fst (fst (fst (Zenorc.poll_email Samples.ascii_only Samples.mail_cfg
                   (Samples.inbox true) ∅ Samples.empty_world))) = None.
Proof.
  destruct (Zenorc.poll_email Samples.ascii_only Samples.mail_cfg
              (Samples.inbox true) ∅ Samples.empty_world)
    as [[[r seen'] w'] ops] eqn:E.
  refine (proj1 (unmarked_payment_is_dropped _ _ _ _ _ _ _ _ _ (lit "7")
                   (Exn (LibraryError "abort") (lit "socket error")) E _ _)).
  - vm_compute in E. injection E as _ _ _ <-.
    do 3 apply list_elem_of_further. apply list_elem_of_here.
  - reflexivity.
Defined.

(** X12. One turn of [main_loop], scanner included, either leaves the queue
    as it is or appends exactly one identifier at its tail; an identifier it
    appends was neither in the recorded set nor in the status mapping before
    the turn, and is Queued after it. *)
Theorem turn_never_requeues (U : unicode) (cfg : Zenorc.config)
  (mc : Zenorc.mail_config) (mb : Zenorc.mailbox) (i : Zenorc.inputs)
  (seen : gset Zenorc.uid) (w : Zenorc.world) :
  let w' := snd (Zenorc.main_loop_turn U cfg mc mb i seen w) in
  Zenorc.queue w' = Zenorc.queue w \/
  exists t,
    Zenorc.queue w' = Zenorc.queue w ++ [t] /\
    (t ∉ Zenorc.seen_txn_ids w) /\
    Zenorc.status w !! t = None /\
    Zenorc.status w' !! t = Some Zenorc.Queued.
Proof.
  unfold Zenorc.main_loop_turn.
  destruct (Zenorc.poll_email U mc mb seen w) as [[[r seen'] w1] ops] eqn:E.
  cbn [snd].
  pose proof (poll_email_frame _ _ _ _ _ _ _ _ _ E)
    as ((Hseen & Hq & Hst & _) & _).
  unfold Zenorc.main_loop_body. cbn [Zenorc.polled Zenorc.sheet_env].
  destruct r as [[|c t']|]; [by left | | by left].
  case_bool_decide as Hs; [by left|].
  right. exists (c :: t').
  destruct (log_payment_frame cfg (Zenorc.sheet_env i) (c :: t') (lit "5")
              (Zenorc.set_status (c :: t') Zenorc.Queued w1))
    as (Eq & Es & _).
  cbn [Zenorc.queue Zenorc.status Zenorc.log Zenorc.set_queue].
  rewrite Eq, Es. cbn [Zenorc.queue Zenorc.status Zenorc.set_status].
  split; [by rewrite Hq|]. split.
  - by destruct (poll_email_some _ _ _ _ _ _ _ _ _ E) as [Hn _].
  - split; [|by rewrite lookup_insert_eq].
    rewrite <- Hst. by apply eq_None_not_Some.
Qed.

(** ** What the recorder writes *)

(** The two ways [log_payment] can end. *)
Lemma log_payment_cases (cfg : Zenorc.config)
  (L : Zenorc.ledger_env) (txn_id amount : str) (w : Zenorc.world) :
  let w' := Zenorc.log_payment cfg L txn_id amount w in
  (Zenorc.ledger w' =
     Zenorc.ledger w ++ [[txn_id; amount; Zenorc.today L; Zenorc.time_of_day L]] /\
   Zenorc.seen_txn_ids w' = {[txn_id]} ∪ Zenorc.seen_txn_ids w /\
   Zenorc.stdout w' =
     Zenorc.stdout w ++
     [log_line "INFO" (lit "Logged " ++ txn_id ++ lit " to Google Sheets.")] /\
   Zenorc._sheet cfg L = Ok tt /\ Zenorc.append_row L = None /\
   Zenorc.zones L "Asia/Mumbai"%string = true) \/
  (Zenorc.ledger w' = Zenorc.ledger w /\
   Zenorc.seen_txn_ids w' = Zenorc.seen_txn_ids w /\
   exists e,
     Zenorc.stdout w' =
       Zenorc.stdout w ++
       [log_line "ERROR"
          (lit "Failed to log payment to Google Sheets: " ++ exn_text e)]).
Proof.
  unfold Zenorc.log_payment, Zenorc.log_payment_try. cbv zeta.
  destruct (Zenorc._sheet cfg L) as [[]|e] eqn:Es; [|right; by eauto].
  destruct (Zenorc.zones L "Asia/Mumbai"%string) eqn:Ez.
  - rewrite (tz_mumbai_available _ Ez).
    destruct (Zenorc.append_row L) as [e|] eqn:Ea; [right; by eauto|].
    left. by repeat split.
  - rewrite (tz_mumbai_unavailable _ Ez). right. by eauto.
Qed.

(** X13. [log_payment] never raises and prints exactly one line. Either it
    appends the row (identifier, amount, date, time) to the sheet, adds the
    identifier to the recorded set and prints the INFO line, or it changes
    neither the sheet nor the recorded set and prints the ERROR line with the
    text of what was raised. The recorded set gains the identifier only
    together with the row. *)
Theorem log_payment_records_with_row (cfg : Zenorc.config)
  (L : Zenorc.ledger_env) (txn_id amount : str) (w : Zenorc.world) :
  let w' := Zenorc.log_payment cfg L txn_id amount w in
  (Zenorc.ledger w' =
     Zenorc.ledger w ++ [[txn_id; amount; Zenorc.today L; Zenorc.time_of_day L]] /\
   Zenorc.seen_txn_ids w' = {[txn_id]} ∪ Zenorc.seen_txn_ids w /\
   Zenorc.stdout w' =
     Zenorc.stdout w ++
     [log_line "INFO" (lit "Logged " ++ txn_id ++ lit " to Google Sheets.")] /\
   Zenorc._sheet cfg L = Ok tt /\ Zenorc.append_row L = None /\
   Zenorc.zones L "Asia/Mumbai"%string = true) \/
  (Zenorc.ledger w' = Zenorc.ledger w /\
   Zenorc.seen_txn_ids w' = Zenorc.seen_txn_ids w /\
   exists e,
     Zenorc.stdout w' =
       Zenorc.stdout w ++
       [log_line "ERROR"
          (lit "Failed to log payment to Google Sheets: " ++ exn_text e)]).
Proof.
  exact (log_payment_cases cfg L txn_id amount w).
Qed.

Section NoZone.
Context (cfg : Zenorc.config).
Import Zenorc.

Lemma log_payment_no_zone L t amount w :
  zones L "Asia/Mumbai"%string = false ->
  ledger (log_payment cfg L t amount w) = ledger w /\
  seen_txn_ids (log_payment cfg L t amount w) = seen_txn_ids w.
Proof.
  intros Hz.
  destruct (log_payment_cases cfg L t amount w)
    as [(_ & _ & _ & _ & _ & Hz') | (? & ? & _)]; [congruence | done].
Qed.

Lemma step_no_zone s a :
  zone_missing a ->
  ledger (sw (step cfg s a)) = ledger (sw s) /\
  seen_txn_ids (sw (step cfg s a)) = seen_txn_ids (sw s).
Proof.
  destruct s as [w p c]. destruct a as [d|i|i]; simpl; intros Hz.
  - by destruct (Qle_bool 0 d).
  - destruct p as [| |r|t|t|t|t|]; simpl; try done.
    + destruct r as [[|ch t']|]; try done. by case_bool_decide.
    + by apply log_payment_no_zone.
  - destruct c as [| |now| |t|t|t ok| | |e]; simpl; try done.
    + by case_eq (queue w).
    + by destruct (Qltb _ _).
    + by case_eq (queue w).
    + by destruct (send_mqtt cfg (broker i) 3 5).
Qed.

End NoZone.

(** X14. On a system whose time zone database has no key "Asia/Mumbai",
    nothing is ever recorded: in every interleaving, the sheet receives no
    row and the recorded set stays what the bootstrap loaded, whatever the
    spreadsheet service answers. *)
Theorem nothing_recorded_without_zone (cfg : Zenorc.config)
  (bootstrapped : gset str) (t0 : Q) (acts : list Zenorc.action) :
  Forall Zenorc.zone_missing acts ->
  let s := Zenorc.run cfg (Zenorc.started bootstrapped t0) acts in
  Zenorc.ledger (Zenorc.sw s) = [] /\
  Zenorc.seen_txn_ids (Zenorc.sw s) = bootstrapped.
Proof.
  intros Hall. cbv zeta. unfold Zenorc.run.
  assert (forall s,
            Zenorc.ledger (Zenorc.sw (fold_left (Zenorc.step cfg) acts s)) =
              Zenorc.ledger (Zenorc.sw s) /\
            Zenorc.seen_txn_ids (Zenorc.sw (fold_left (Zenorc.step cfg) acts s)) =
              Zenorc.seen_txn_ids (Zenorc.sw s)) as Hrun.
  { induction Hall as [|a acts Ha _ IH]; intros s; simpl; [done|].
    destruct (IH (Zenorc.step cfg s a)) as [-> ->]. by apply step_no_zone. }
  apply Hrun.
Qed.

Lemma nothing_recorded_witness :
  Zenorc.ledger
    (Zenorc.sw (Zenorc.run Samples.cfg (Zenorc.started ∅ 100)
                  Samples.turn_without_zone)) = [].
Proof.
  refine (proj1 (nothing_recorded_without_zone Samples.cfg ∅ 100
                   Samples.turn_without_zone _)).
  repeat constructor.
Defined.

(** ** main.py: the ingest endpoint never answers 4xx *)

(** X15. Whatever the request and whatever the environment answers, the
    response of [ingest_endpoint] has status 200 or 500: every exception of
    the body, the 400 for a refused URL included, leaves the endpoint as a
    500. With data that does not start with "http" it runs neither the
    cleanup nor the version-control client. *)
Theorem ingest_answers_200_or_500 (E : Main.ingest_env) (req : Main.SessionRequest) :
  (Main.response_status (snd (Main.ingest_endpoint E req)) = 200%Z \/
   Main.response_status (snd (Main.ingest_endpoint E req)) = 500%Z) /\
  (forall target, Main.data req = Some target ->
                  startswith (lit "http") target = false ->
                  fst (Main.ingest_endpoint E req) = []).
Proof.
  unfold Main.ingest_endpoint. split.
  - destruct (Main.ingest_try E req) as [evs [r|e]]; [by left | by right].
  - intros target Hd Hh. unfold Main.ingest_try. rewrite Hd, Hh.
    destruct (Main.create_context (Main.at_path E target) (Main.session_id req))
      as [[[count ctx]|e] written]; [|done].
    by destruct (Main.upload E).
Qed.

(** ** What the context blob is made of *)

Section Blob.
Import Main.

Lemma chunks_app l1 l2 : chunks (l1 ++ l2) = chunks l1 ++ chunks l2.
Proof. unfold chunks. by rewrite map_app, concat_app. Qed.

Lemma chunks_cons f l : chunks (f :: l) = text_chunk (fst f) (snd f) ++ chunks l.
Proof. done. Qed.

Lemma takes_nil a : takes a [] a.
Proof.
  unfold takes. cbn [chunks map concat length]. rewrite app_nil_r.
  split; [done|]. split; lia.
Qed.

Lemma takes_app a l1 a1 l2 a2 :
  takes a l1 a1 -> takes a1 l2 a2 -> takes a (l1 ++ l2) a2.
Proof.
  intros (Hc1 & Hn1 & Hs1) (Hc2 & Hn2 & Hs2). unfold takes.
  rewrite chunks_app, !length_app, Hc2, Hc1, Hn2, Hn1, Hs2, Hs1, app_assoc.
  split; [done|]. split; lia.
Qed.

Lemma fits_app_l a v1 v2 : fits a (v1 ++ v2) -> fits a v1.
Proof. unfold fits. rewrite chunks_app, length_app. lia. Qed.

Lemma fits_app_r a a1 v1 v2 :
  takes a v1 a1 -> fits a (v1 ++ v2) -> fits a1 v2.
Proof.
  intros (_ & _ & Hs). unfold fits. rewrite chunks_app, length_app, Hs. lia.
Qed.

(** Two steps of the walk, one after the other. *)
Lemma takes_then a a1 a2 v1 v2 :
  (exists l, sublist l v1 /\ takes a l a1 /\ (fits a v1 -> l = v1)) ->
  (exists l, sublist l v2 /\ takes a1 l a2 /\ (fits a1 v2 -> l = v2)) ->
  exists l, sublist l (v1 ++ v2) /\ takes a l a2 /\ (fits a (v1 ++ v2) -> l = v1 ++ v2).
Proof.
  intros (l1 & Hs1 & Ht1 & Hf1) (l2 & Hs2 & Ht2 & Hf2).
  exists (l1 ++ l2). split; [by apply sublist_app|].
  split; [by eapply takes_app|].
  intros Hfit. rewrite (Hf1 (fits_app_l _ _ _ Hfit)) in *.
  by rewrite (Hf2 (fits_app_r _ _ _ _ Ht1 Hfit)).
Qed.

Lemma scan_files_takes files : forall a,
  exists l, sublist l (omap included files) /\ takes a l (scan_files files a) /\
            (fits a (omap included files) -> l = omap included files).
Proof.
  induction files as [|f files IH]; intros a; cbn [scan_files omap list_omap].
  - exists []. split; [done|]. split; [apply takes_nil | done].
  - destruct f as [file data | d sub]; cbn [included]; [|apply IH].
    destruct (in_set (splitext_ext file) ALLOWED_EXTENSIONS);
      [|destruct data; apply IH].
    destruct data as [file_content|]; [|apply IH]. cbv zeta.
    destruct (MAX_SIZE <? _)%Z eqn:E.
    + exists []. split; [apply sublist_nil_l|]. split; [apply takes_nil|].
      intros Hfit. exfalso. apply Z.ltb_lt in E. unfold fits in Hfit.
      rewrite chunks_cons, length_app in Hfit. cbn [fst snd] in Hfit. lia.
    + apply (takes_then a
               (Acc (content a ++ text_chunk file file_content) (file_count a + 1)
                  (current_size a
                   + Z.of_nat (length (text_chunk file file_content))))
               _ [(file, file_content)] (omap included files)); [|apply IH].
      exists [(file, file_content)]. split; [done|]. split; [|done].
      unfold takes. cbn [content file_count current_size length].
      rewrite chunks_cons. cbn [fst snd chunks map concat].
      rewrite !app_nil_r. split; [done|]. split; lia.
Qed.

Lemma walk_takes n : forall a,
  exists l, sublist l (visible n) /\ takes a l (walk n a) /\
            (fits a (visible n) -> l = visible n).
Proof.
  induction n as [name data | name children IH] using node_rect';
    intros a; cbn [walk visible].
  - exists []. split; [done|]. split; [apply takes_nil | done].
  - apply (takes_then a (scan_files children a)); [apply scan_files_takes|].
    generalize (scan_files children a). clear a.
    induction children as [|c children IHc]; intros a.
    + exists []. split; [done|]. split; [apply takes_nil | done].
    + apply Forall_cons in IH as [Hc Hcs].
      destruct c as [file data | d sub]; [by apply IHc|].
      apply (takes_then a (if in_set d IGNORE_DIRS then a else walk (Dir d sub) a));
        [|by apply IHc].
      destruct (in_set d IGNORE_DIRS); [|apply Hc].
      exists []. split; [done|]. split; [apply takes_nil | done].
Qed.

End Blob.

(** X16. The context blob [create_context] writes is made of whole chunks:
    it is the chunks, one after the other, of some of the files the walk
    comes to (readable files with an allowed extension, outside ignored
    directories), in the order of the walk, and the count returned is the
    number of those chunks. When all those files together fit in MAX_SIZE,
    the blob holds every one of them. *)
Theorem context_is_whole_chunks (n : Main.node) (session_id : str) :
  exists l,
    sublist l (Main.visible n) /\
    Main.create_context (Some n) session_id =
      (Ok (Z.of_nat (length l),
           Main.CONTEXT_FILE ++ lit "_" ++ session_id ++ lit ".txt"),
       Some (Main.CONTEXT_FILE ++ lit "_" ++ session_id ++ lit ".txt",
             Main.chunks l)) /\
    ((Z.of_nat (length (Main.chunks (Main.visible n))) <= Main.MAX_SIZE)%Z ->
     l = Main.visible n).
Proof.
  destruct (walk_takes n (Main.Acc [] 0 0)) as (l & Hsub & (Hc & Hn & _) & Hfit).
  exists l. split; [done|]. split; [|by apply Hfit].
  unfold Main.create_context. cbn [Main.content Main.file_count] in *.
  by rewrite Hc, Hn.
Qed.

Lemma save_code_tool_paths open_raises filename content :
  Forall (fun op => Main.op_path op =
                    Main.OUTPUT_DIR ++ Main.SLASH :: Main.basename filename)
    (fst (Main.save_code_tool open_raises filename content)).
Proof.
  unfold Main.save_code_tool.
  rewrite (join_output_dir _ (basename_no_slash filename)).
  destruct (open_raises _); by repeat constructor.
Qed.

Lemma download_file_paths exists_ filename :
  Forall (fun op => Main.op_path op =
                    Main.OUTPUT_DIR ++ Main.SLASH :: Main.basename filename)
    (fst (Main.download_file exists_ filename)).
Proof.
  unfold Main.download_file.
  rewrite (join_output_dir _ (basename_no_slash filename)).
  destruct (exists_ _); by repeat constructor.
Qed.

(** X17. The path [save_code_tool] opens for one name and the path
    [download_file] tests and serves for another are the same path exactly
    when the two names have the same base name: a saved file is served under
    any name with its base name, and two names with one base name are one
    file. *)
Theorem same_base_name_same_path (open_raises : str -> option exn)
  (exists_ : str -> bool) (f1 f2 content : str) :
  Main.basename f1 = Main.basename f2 <->
  forall op1 op2,
    op1 ∈ fst (Main.save_code_tool open_raises f1 content) ->
    op2 ∈ fst (Main.download_file exists_ f2) ->
    Main.op_path op1 = Main.op_path op2.
Proof.
  pose proof (save_code_tool_paths open_raises f1 content) as Hs1.
  pose proof (download_file_paths exists_ f2) as Hd2.
  rewrite Forall_forall in Hs1. rewrite Forall_forall in Hd2. split.
  - intros Hb op1 op2 H1 H2. rewrite (Hs1 _ H1), (Hd2 _ H2). by rewrite Hb.
  - intros H.
    assert (exists op1, op1 ∈ fst (Main.save_code_tool open_raises f1 content))
      as [op1 H1].
    { unfold Main.save_code_tool. destruct (open_raises _); eexists;
        apply list_elem_of_here. }
    assert (exists op2, op2 ∈ fst (Main.download_file exists_ f2)) as [op2 H2].
    { unfold Main.download_file. destruct (exists_ _); eexists;
        apply list_elem_of_here. }
    specialize (H op1 op2 H1 H2). rewrite (Hs1 _ H1), (Hd2 _ H2) in H.
    apply app_inv_head in H. by injection H.
Qed.

Lemma context_is_whole_chunks_witness :
  snd (Main.create_context (Some Samples.repo) Samples.session) =
    Some (Main.CONTEXT_FILE ++ lit "_" ++ Samples.session ++ lit ".txt",
          Main.chunks [(lit "a.py", lit "print(1)"); (lit "d.md", lit "# notes")]).
Proof.
  destruct (context_is_whole_chunks Samples.repo Samples.session)
    as (l & _ & H & Hfit).
  rewrite H. rewrite Hfit; [reflexivity|]. by vm_compute.
Defined.

(** ** Sessions and the model endpoints *)

Section Sessions.
Import Main.

Lemma get_session_lookup sid S :
  fst (get_session sid S) !! sid = Some (snd (get_session sid S)).
Proof.
  unfold get_session. destruct (S !! sid) eqn:E; simpl; [done|].
  by rewrite lookup_insert_eq.
Qed.

Lemma get_session_other sid S k :
  k <> sid -> fst (get_session sid S) !! k = S !! k.
Proof.
  intros Hk. unfold get_session. destruct (S !! sid); simpl; [done|].
  by rewrite lookup_insert_ne.
Qed.

Lemma get_session_keeps sid S s :
  S !! sid = Some s -> get_session sid S = (S, s).
Proof. intros H. unfold get_session. by rewrite H. Qed.

Lemma get_session_pair sid S :
  get_session sid S = (fst (get_session sid S), snd (get_session sid S)).
Proof. by destruct (get_session sid S). Qed.

(** The name of the last file saved is the name in the last write. *)
Lemma save_parts_last open_raises parts : forall result_file ops f,
  save_parts open_raises parts result_file = (ops, Ok (Some f)) ->
  (ops = [] /\ result_file = Some f) \/
  (exists ops0 content,
     ops = ops0 ++ [OpWrite (join OUTPUT_DIR (basename f)) content]).
Proof.
  induction parts as [|[fc|] parts IH]; intros result_file ops f H;
    cbn [save_parts] in H.
  - injection H as <- ->. by left.
  - destruct (String.eqb (fc_name fc) "save_code_tool"); [|by eapply IH].
    unfold save_code_tool in H.
    destruct (open_raises (join OUTPUT_DIR (basename (fc_filename fc))));
      [done|].
    destruct (save_parts open_raises parts (Some (fc_filename fc)))
      as [ops' r] eqn:E.
    injection H as <- ->. right.
    destruct (IH _ _ _ E) as [[-> [= ->]] | (ops0 & content & ->)].
    + exists [], (fc_content fc). reflexivity.
    + exists (OpWrite (join OUTPUT_DIR (basename (fc_filename fc))) (fc_content fc)
                :: ops0), content. done.
  - by eapply IH.
Qed.

End Sessions.

(** X18. [get_session] is idempotent and what it returns is what the store
    then holds under the key; it leaves every other key alone, and an
    existing entry as it is. [get_history_endpoint] then returns that entry. *)
Theorem get_session_round_trip (sid : str) (S : gmap str Main.session) :
  let S1 := fst (Main.get_session sid S) in
  let s := snd (Main.get_session sid S) in
  S1 !! sid = Some s /\
  Main.get_session sid S1 = (S1, s) /\
  Main.get_history_endpoint sid S1 = Main.Stored s /\
  (forall k, k <> sid -> S1 !! k = S !! k) /\
  (forall s0, S !! sid = Some s0 -> S1 = S /\ s = s0) /\
  (S !! sid = None -> s = Main.new_session /\
                      Main.get_history_endpoint sid S = Main.Blank).
Proof.
  intros S1 s. pose proof (get_session_lookup sid S) as Hl. fold S1 s in Hl.
  split; [done|]. split; [by apply get_session_keeps|].
  split; [unfold Main.get_history_endpoint; by rewrite Hl|].
  split; [intros k Hk; by apply get_session_other|]. split.
  - intros s0 H0. unfold S1, s. by rewrite (get_session_keeps _ _ _ H0).
  - intros Hn. unfold s, Main.get_session, Main.get_history_endpoint.
    by rewrite Hn.
Qed.

(** X19. The three model endpoints never answer 4xx and never touch another
    session: the response of [analyze_endpoint], [refactor_endpoint] and
    [chat_endpoint] has status 200 or 500, and the store afterwards agrees
    with the store before on every key but the request's. In particular the
    400 raised when no repository is loaded, or when no analysis was run,
    leaves the endpoint as a 500. *)
Theorem model_endpoints_answer_200_or_500 (A : Main.analyze_env)
  (M : Main.model_env) (S : gmap str Main.session) (req : Main.SessionRequest) :
  let a := Main.analyze_endpoint A S req in
  let r := Main.refactor_endpoint M S req in
  let c := Main.chat_endpoint M S req in
  (Main.response_status (snd a) = 200%Z \/ Main.response_status (snd a) = 500%Z) /\
  (Main.response_status (snd r) = 200%Z \/ Main.response_status (snd r) = 500%Z) /\
  (Main.response_status (snd c) = 200%Z \/ Main.response_status (snd c) = 500%Z) /\
  (forall k, k <> Main.session_id req ->
             fst a !! k = S !! k /\ fst (fst r) !! k = S !! k /\
             fst (fst c) !! k = S !! k) /\
  (Main.truthy (Main.file_name (snd (Main.get_session (Main.session_id req) S)))
     = false ->
   a = (fst (Main.get_session (Main.session_id req) S),
        Raise (Main.http_exception 500 (lit "400: No repo loaded.")))) /\
  (Main.truthy (Main.analysis (snd (Main.get_session (Main.session_id req) S)))
     = false ->
   r = (fst (Main.get_session (Main.session_id req) S), [],
        Raise (Main.http_exception 500 (lit "400: Run analysis first.")))).
Proof.
  cbv zeta.
  unfold Main.analyze_endpoint, Main.refactor_endpoint, Main.chat_endpoint.
  split; [destruct (Main.analyze_try A S req) as [S' [t|e]]; by auto|].
  split; [destruct (Main.refactor_try M S req) as [[S' ops] [t|e]]; by auto|].
  split; [destruct (Main.chat_try M S req) as [[S' ops] [t|e]]; by auto|].
  split; [|split].
  - intros k Hk.
    pose proof (get_session_other (Main.session_id req) S k Hk) as Ho.
    unfold Main.analyze_try, Main.refactor_try, Main.chat_try.
    rewrite (get_session_pair (Main.session_id req) S).
    set (S1 := fst (Main.get_session (Main.session_id req) S)) in *.
    set (s := snd (Main.get_session (Main.session_id req) S)) in *.
    split; [|split].
    + destruct (negb (Main.truthy (Main.file_name s))); [done|].
      destruct (Main.a_configure A); [done|].
      destruct (Main.a_get_file A); [done|].
      destruct (Main.a_text A); [|done]. simpl. by rewrite lookup_insert_ne.
    + destruct (negb (Main.truthy (Main.analysis s))); [done|].
      destruct (Main.m_configure M); [done|].
      destruct (Main.m_get_file M); [done|].
      destruct (Main.m_parts M) as [parts|]; [|done].
      destruct (Main.save_parts (Main.m_open M) parts None) as [ops [[[|c f]|]|]];
        try (destruct (Main.m_text M); done); try done.
      simpl. by rewrite lookup_insert_ne.
    + destruct (Main.m_configure M); [done|].
      destruct (Main.m_parts M) as [parts|];
        [|simpl; by rewrite lookup_insert_ne].
      destruct (Main.m_text M) as [text|]; [|simpl; by rewrite lookup_insert_ne].
      destruct (Main.chat_parts (Main.m_open M) parts _) as [ops [reply|]];
        simpl; by rewrite ?lookup_insert_ne.
  - intros Ht. unfold Main.analyze_try.
    rewrite (get_session_pair (Main.session_id req) S). by rewrite Ht.
  - intros Ht. unfold Main.refactor_try.
    rewrite (get_session_pair (Main.session_id req) S). by rewrite Ht.
Qed.

Lemma model_endpoints_witness :
  Main.analyze_endpoint {| Main.a_configure := None; Main.a_get_file := None; Main.a_text := Ok [] |} ∅
    Samples.foreign_request =
  ({[Samples.session := Main.new_session]},
   Raise (Main.http_exception 500 (lit "400: No repo loaded."))).
Proof.
  refine (proj1 (proj2 (proj2 (proj2 (proj2
    (model_endpoints_answer_200_or_500
       {| Main.a_configure := None; Main.a_get_file := None; Main.a_text := Ok [] |}
       {| Main.m_configure := None; Main.m_get_file := None;
          Main.m_parts := Ok []; Main.m_text := Ok None;
          Main.m_open := fun _ => None |} ∅ Samples.foreign_request))))) _).
  reflexivity.
Defined.

(** X20. When [analyze_endpoint] succeeds, the session's analysis is the
    text returned, its history has gained exactly one message (the model's),
    and its loaded file and generated file are as before; when it fails, the
    store is what [get_session] left. *)
Theorem analyze_updates_session (A : Main.analyze_env)
  (S : gmap str Main.session) (req : Main.SessionRequest) :
  let s := snd (Main.get_session (Main.session_id req) S) in
  let S' := fst (Main.analyze_endpoint A S req) in
  (forall text,
     snd (Main.analyze_endpoint A S req) = Ok text ->
     exists s', S' !! Main.session_id req = Some s' /\
                Main.analysis s' = Some text /\
                Main.file_name s' = Main.file_name s /\
                Main.truthy (Main.file_name s) = true /\
                Main.generated_file s' = Main.generated_file s /\
                exists m, Main.history s' = Main.history s ++ [("model"%string, m)]) /\
  (forall e,
     snd (Main.analyze_endpoint A S req) = Raise e ->
     S' = fst (Main.get_session (Main.session_id req) S)).
Proof.
  cbv zeta. unfold Main.analyze_endpoint, Main.analyze_try.
  rewrite (get_session_pair (Main.session_id req) S).
  set (S1 := fst (Main.get_session (Main.session_id req) S)).
  set (s := snd (Main.get_session (Main.session_id req) S)).
  destruct (Main.truthy (Main.file_name s)) eqn:Et; cbn [negb]; [|by split].
  destruct (Main.a_configure A); [by split|].
  destruct (Main.a_get_file A); [by split|].
  destruct (Main.a_text A) as [text|e]; [|by split].
  split; [|done]. intros t [= <-]. cbn [fst].
  exists (Main.with_analysis text s). rewrite lookup_insert_eq.
  repeat split; try done. by eexists.
Qed.

(** X21. When [refactor_endpoint] answers that a file was generated, the
    name it reports is the name recorded in the session, the last file
    written is OUTPUT_DIR joined with the base name of that name, and
    [download_file] asked for the reported name serves exactly that file. *)
Theorem refactored_file_can_be_downloaded (M : Main.model_env)
  (S S' : gmap str Main.session) (req : Main.SessionRequest)
  (ops : list Main.fs_op) (f : str) :
  Main.refactor_endpoint M S req = (S', ops, Ok (Main.Refactored f)) ->
  (exists s', S' !! Main.session_id req = Some s' /\
              Main.generated_file s' = Some f) /\
  (exists ops0 content,
     ops = ops0 ++ [Main.OpWrite (Main.join Main.OUTPUT_DIR (Main.basename f))
                      content]) /\
  (forall exists_,
     exists_ (Main.join Main.OUTPUT_DIR (Main.basename f)) = true ->
     snd (Main.download_file exists_ f) =
       Main.FileResponse (Main.join Main.OUTPUT_DIR (Main.basename f)) f).
Proof.
  unfold Main.refactor_endpoint, Main.refactor_try.
  rewrite (get_session_pair (Main.session_id req) S).
  set (S1 := fst (Main.get_session (Main.session_id req) S)).
  set (s := snd (Main.get_session (Main.session_id req) S)).
  destruct (negb (Main.truthy (Main.analysis s))); [done|].
  destruct (Main.m_configure M); [done|].
  destruct (Main.m_get_file M); [done|].
  destruct (Main.m_parts M) as [parts|]; [|done].
  destruct (Main.save_parts (Main.m_open M) parts None) as [ops1 [res|]] eqn:E;
    [|done].
  destruct res as [[|c f']|]; try (destruct (Main.m_text M); done).
  intros [= <- <- <-]. split; [|split].
  - exists (Main.with_generated (c :: f') s). by rewrite lookup_insert_eq.
  - by destruct (save_parts_last _ _ _ _ _ E) as [[_ [=]] | ?].
  - intros exists_ He. unfold Main.download_file. by rewrite He.
Qed.

(** X22. [chat_endpoint] appends the user's message to the session's history
    once the API key is configured and before it calls the model. When
    configuring raises, the store is what [get_session] left and the message
    is not kept; otherwise, after a failed call the history has gained that
    message and nothing else, and after a successful one it has gained that
    message and then the reply returned. *)
Theorem chat_keeps_user_message (M : Main.model_env)
  (S : gmap str Main.session) (req : Main.SessionRequest) :
  let s := snd (Main.get_session (Main.session_id req) S) in
  let S' := fst (fst (Main.chat_endpoint M S req)) in
  match Main.m_configure M with
  | Some e =>
      Main.chat_endpoint M S req =
        (fst (Main.get_session (Main.session_id req) S), [],
         Raise (Main.http_exception 500 (exn_text e)))
  | None =>
      exists s',
        S' !! Main.session_id req = Some s' /\
        Main.file_name s' = Main.file_name s /\
        Main.analysis s' = Main.analysis s /\
        match snd (Main.chat_endpoint M S req) with
        | Ok reply =>
            Main.history s' =
              Main.history s ++ [("user"%string, Main.data req);
                                 ("model"%string, Some reply)]
        | Raise e =>
            Main.history s' = Main.history s ++ [("user"%string, Main.data req)]
        end
  end.
Proof.
  cbv zeta. unfold Main.chat_endpoint, Main.chat_try.
  rewrite (get_session_pair (Main.session_id req) S).
  set (S1 := fst (Main.get_session (Main.session_id req) S)).
  set (s := snd (Main.get_session (Main.session_id req) S)).
  destruct (Main.m_configure M) as [e0|]; [done|].
  destruct (Main.m_parts M) as [parts|].
  2:{ eexists. cbn [fst snd]. rewrite lookup_insert_eq. by repeat split. }
  destruct (Main.m_text M) as [text|].
  2:{ eexists. cbn [fst snd]. rewrite lookup_insert_eq. by repeat split. }
  destruct (Main.chat_parts (Main.m_open M) parts _) as [ops [reply|e]].
  - eexists. cbn [fst snd]. rewrite lookup_insert_eq.
    repeat split; try done. cbn [Main.with_message Main.history].
    by rewrite <- app_assoc.
  - eexists. cbn [fst snd]. rewrite lookup_insert_eq. by repeat split.
Qed.

Lemma refactored_file_witness :
  snd (Main.download_file (fun _ => true) (lit "src/app.py")) =
    Main.FileResponse (Main.join Main.OUTPUT_DIR (Main.basename (lit "src/app.py")))
      (lit "src/app.py").
Proof.
  refine (proj2 (proj2 (refactored_file_can_be_downloaded Samples.saving_model
                          Samples.analysed_store _ Samples.foreign_request _
                          (lit "src/app.py") _)) (fun _ => true) eq_refl).
  vm_compute. reflexivity.
Defined.

(** ** Further facts about the scanner and the recorder *)

(** X23. [_extract_txn_id] always returns an identifier, and never an empty
    one: the test [if txn_id] in [main_loop] never discards a payment the
    scanner found. *)
Theorem extract_txn_id_never_empty (U : unicode) (body : str) (now : Q) :
  exists c t, Zenorc._extract_txn_id U body now = Some (c :: t).
Proof.
  assert (Zenorc.pattern_reference ∈ Zenorc.patterns) as H1
    by (apply elem_of_cons; by left).
  assert (Zenorc.pattern_transaction ∈ Zenorc.patterns) as H2
    by (apply elem_of_cons; right; by apply list_elem_of_singleton).
  assert (forall r x, r ∈ Zenorc.patterns -> Re.search U r body = Some x ->
                      exists c t, Re.group1 x = Some (c :: t)) as Hne.
  { intros r x Hr Hx.
    destruct (pattern_group_some U _ _ _ Hr Hx) as (g & Hg & Hc).
    pose proof (pattern_group U _ _ _ Hr Hc) as [Hlen _].
    destruct g as [|c t]; [simpl in Hlen; lia | by exists c, t]. }
  unfold Zenorc._extract_txn_id, Zenorc.patterns. cbn [Zenorc.first_match].
  destruct (Re.search U Zenorc.pattern_reference body) as [x|] eqn:E1.
  - destruct (Hne _ _ H1 E1) as (c & t & ->). by eexists _, _.
  - destruct (Re.search U Zenorc.pattern_transaction body) as [x|] eqn:E2.
    + destruct (Hne _ _ H2 E2) as (c & t & ->). by eexists _, _.
    + by eexists _, _.
Qed.

(** X24. When EMAIL_ID or EMAIL_PASSWORD is missing, [poll_email] sends no
    command to the server, whatever the mailbox holds: it returns None,
    leaves [seen_uids] as it is and prints the one ERROR line with the text
    of the RuntimeError; a whole turn of [main_loop] then changes nothing
    but the output. *)
Theorem turn_without_credentials (U : unicode) (cfg : Zenorc.config)
  (mc : Zenorc.mail_config) (mb : Zenorc.mailbox) (i : Zenorc.inputs)
  (seen : gset Zenorc.uid) (w : Zenorc.world) :
  Zenorc.falsy (Zenorc.EMAIL_ID mc) = true \/
  Zenorc.falsy (Zenorc.EMAIL_PASSWORD mc) = true ->
  let w1 :=
    Zenorc.log "ERROR"
      (lit "Error polling email: " ++
       lit "EMAIL_ID or EMAIL_PASSWORD missing from environment.") w in
  Zenorc.poll_email U mc mb seen w = (None, seen, w1, []) /\
  Zenorc.main_loop_turn U cfg mc mb i seen w = (seen, w1).
Proof.
  intros H w1.
  assert (Zenorc.poll_email U mc mb seen w = (None, seen, w1, [])) as E.
  { unfold Zenorc.poll_email, Zenorc._imap_login.
    destruct H as [-> | ->]; [done|]. by rewrite orb_true_r. }
  split; [done|]. unfold Zenorc.main_loop_turn. by rewrite E.
Qed.

Lemma turn_without_credentials_witness :
  fst (Zenorc.main_loop_turn Samples.ascii_only Samples.cfg
         {| Zenorc.EMAIL_ID := None; Zenorc.EMAIL_PASSWORD := Some (lit "x") |}
         (Samples.inbox false) (Samples.found_no_zone None) ∅ Samples.empty_world) = ∅.
Proof.
  rewrite (proj2 (turn_without_credentials Samples.ascii_only Samples.cfg
                    {| Zenorc.EMAIL_ID := None;
                       Zenorc.EMAIL_PASSWORD := Some (lit "x") |}
                    (Samples.inbox false) (Samples.found_no_zone None) ∅
                    Samples.empty_world (or_introl eq_refl))).
  reflexivity.
Defined.

Section Tracked.
Context (cfg : Zenorc.config).
Import Zenorc.





End Tracked.

